(** * The websocket JSON-RPC connection of rpc/jsonrpc/server/ws_handler.go

    A shallow embedding of [wsConnection]: its lifecycle ([Start], [Stop]),
    the two enqueue operations on the outbound channel ([WriteRPCResponse],
    [TryWriteRPCResponse]), the inbound loop ([readRoutine]) and the write
    multiplexer ([writeRoutine]).

    Go's concurrency is made explicit:
    - a channel is a record of its capacity, its buffer and whether a
      receiver is parked on it; [None] is the nil channel;
    - a [select] statement is [selectgo]: it is given which cases can
      proceed and the scheduler's random number, and answers with the chosen
      case, the default case, or that the goroutine stays parked;
    - each goroutine is a function of the inputs its environment feeds it,
      one record ("tick") per loop iteration: what the socket returned,
      whether a context was cancelled, what the other goroutine did to the
      shared channel in the meantime. *)

From Stdlib Require Import ZArith List String Bool Lia.
From Stdlib.Strings Require Import Byte.
From stdpp Require Import base option list strings gmap.
Import ListNotations.

Set Default Proof Using "Type".

(* ===================================================================== *)
(** * Part I: definitions *)
(* ===================================================================== *)

(** ** JSON-RPC values (package rpctypes)

    ws_handler.go imports the package and does not declare these types; the
    shapes are the ones of the wire messages, with the field names that the
    handler uses. *)

(** Modelled from the spec: the id of a request, declared in rpctypes.  It is
    a string or a number; an absent id is the nil interface, [None] at type
    [option jsonrpcid]. *)
Inductive jsonrpcid :=
| JSONRPCStringID (s : string)
| JSONRPCIntID (n : Z).

(** [json.RawMessage] is a byte slice. *)
Definition RawMessage := list byte.

(** Modelled from the spec: the request type of rpctypes,
    [{id?, method, params?}]. *)
Record RPCRequest := {
  ID : option jsonrpcid;
  Method : string;
  Params : RawMessage
}.

(** Modelled from the spec: the error type of rpctypes,
    [{code, message, data?}]; an absent data is the empty string. *)
Record RPCError := {
  Code : Z;
  Message : string;
  Data : string
}.

(** The sentinel errors of package coretypes that ws_handler.go names: the
    four of the inner switch and the two of its comment. *)
Inductive coreErr :=
| ErrZeroOrNegativePerPage
| ErrPageOutOfRange
| ErrInvalidRequest
| ErrZeroOrNegativeHeight
| ErrHeightExceedsChainHead
| ErrHeightNotAvailable.

(** Go's [error] interface, by dynamic type.  Sentinels are compared by
    identity, so they have a constructor of their own: an [errorString] with
    the same text is a different error. *)
Inductive error :=
| errorString (s : string)                 (* errors.New, and any other leaf error *)
| coreError (e : coreErr)                  (* one of the coretypes sentinels *)
| rpcErrorPtr (p : option RPCError)        (* a *rpctypes.RPCError; None is the nil pointer *)
| wrapError (msg : string) (inner : error) (* fmt.Errorf with %w, and any type with Unwrap *).

Definition coreErr_text (e : coreErr) : string :=
  match e with
  | ErrZeroOrNegativePerPage => "ErrZeroOrNegativePerPage"
  | ErrPageOutOfRange => "ErrPageOutOfRange"
  | ErrInvalidRequest => "ErrInvalidRequest"
  | ErrZeroOrNegativeHeight => "ErrZeroOrNegativeHeight"
  | ErrHeightExceedsChainHead => "ErrHeightExceedsChainHead"
  | ErrHeightNotAvailable => "ErrHeightNotAvailable"
  end.

(** [err.Error()]: the text of an error.  A wrapping error carries its whole
    formatted text. *)
Definition Error (e : error) : string :=
  match e with
  | errorString s => s
  | coreError c => coreErr_text c
  | rpcErrorPtr (Some r) => Message r
  | rpcErrorPtr None => ""
  | wrapError msg _ => msg
  end.

(** [errors.Unwrap]: one layer, nil when the error wraps nothing. *)
Definition Unwrap (e : error) : option error :=
  match e with
  | wrapError _ inner => Some inner
  | _ => None
  end.

(** [fmt.Errorf(prefix + ": %w", err)]. *)
Definition Errorf_w (prefix : string) (err : error) : error :=
  wrapError (prefix ++ ": " ++ Error err) err.

(** A [reflect.Value]: the request context handed to every handler, or any
    other Go value, kept by its JSON encoding. *)
Record rpcContext := {
  JSONReq : RPCRequest;
  WSConn : string          (* the connection, by its remote address *)
}.

Inductive Value :=
| ValueOf_Context (c : rpcContext)
| ValueOf_any (v : RawMessage).

(** Modelled from the spec: the response type of rpctypes, a success
    [{id, result}] or a failure [{id, error}]. *)
Record RPCResponse := {
  rID : option jsonrpcid;
  Result : option Value;
  RPCErr : option RPCError
}.

(** Modelled from the spec: the response constructors of package rpctypes,
    which ws_handler.go calls and does not define.  A response is a success
    [{id, result}] or a failure [{id, error: {code, message, data}}]; the
    codes are those of the error taxonomy (ParseError -32700, InvalidRequest
    -32600, MethodNotFound -32601, InvalidParams -32602, InternalError
    -32603).  The wording of messages is left open there: the taxonomy's
    names stand for them, and the cause's text is the data. *)
Definition NewRPCSuccessResponse (id : option jsonrpcid) (res : Value) : RPCResponse :=
  {| rID := id; Result := Some res; RPCErr := None |}.

(** Modelled from the spec: a failure response [{id, error}]. *)
Definition NewRPCErrorResponse (id : option jsonrpcid) (code : Z) (msg data : string)
  : RPCResponse :=
  {| rID := id; Result := None;
     RPCErr := Some {| Code := code; Message := msg; Data := data |} |}.

(** Modelled from the spec: ParseError, whose id is unknown. *)
Definition RPCParseError (err : error) : RPCResponse :=
  NewRPCErrorResponse None (-32700) "ParseError" (Error err).

(** Modelled from the spec: InvalidRequest. *)
Definition RPCInvalidRequestError (id : option jsonrpcid) (err : error) : RPCResponse :=
  NewRPCErrorResponse id (-32600) "InvalidRequest" (Error err).

(** Modelled from the spec: MethodNotFound. *)
Definition RPCMethodNotFoundError (id : option jsonrpcid) : RPCResponse :=
  NewRPCErrorResponse id (-32601) "MethodNotFound" "".

(** Modelled from the spec: InvalidParams. *)
Definition RPCInvalidParamsError (id : option jsonrpcid) (err : error) : RPCResponse :=
  NewRPCErrorResponse id (-32602) "InvalidParams" (Error err).

(** Modelled from the spec: InternalError. *)
Definition RPCInternalError (id : option jsonrpcid) (err : error) : RPCResponse :=
  NewRPCErrorResponse id (-32603) "InternalError" (Error err).

(** The code of a response, when it is a failure. *)
Definition resp_code (r : RPCResponse) : option Z := Code <$> RPCErr r.

(** ** Handlers *)

(** What a panic carries: an error, or any other value (by its %v text). *)
Inductive PanicValue :=
| PanicError (e : error)
| PanicAny (v : string).

(** Modelled from the spec: invoking a method descriptor.  The callable takes
    the request context and the bound parameters; [rpcFunc.f.Call(args)]
    followed by [unreflectResult], which is defined elsewhere in the package,
    gives a result and an error, unless the call panics.  What a handler does
    besides returning is outside this model. *)
Inductive CallResult :=
| Returns (result : Value) (err : option error)
| Panics (r : PanicValue).

(** Modelled from the spec: a method descriptor (the RPCFunc type is declared
    in another file of the package): the callable, and the binding of raw
    parameters that its parameter schema determines. *)
Record RPCFunc := {
  f : list Value -> CallResult;
  bind : RawMessage -> list Value + error
}.

(** Modelled from the spec: [jsonParamsToArgs], defined elsewhere in the
    package: bound arguments, or a binding error. *)
Definition jsonParamsToArgs (rpcFunc : RPCFunc) (raw : RawMessage)
  : list Value + error := bind rpcFunc raw.

(** ** Contexts, channels and select *)

(** [context.Context].  [Background] is never cancelled (its Done channel is
    nil); a cancellable context carries its error once Done is closed. *)
Inductive context :=
| Background
| WithCancel (err : option error).

Definition Canceled : error := errorString "context canceled".

(** Whether a receive from [ctx.Done()] can proceed. *)
Definition Done (ctx : context) : bool :=
  match ctx with
  | WithCancel (Some _) => true
  | _ => false
  end.

(** [ctx.Err()]. *)
Definition Err (ctx : context) : option error :=
  match ctx with
  | WithCancel e => e
  | Background => None
  end.

(** The cancel function of a context: the first cancellation wins. *)
Definition cancel (ctx : context) : context :=
  match ctx with
  | WithCancel None => WithCancel (Some Canceled)
  | _ => ctx
  end.

(** A channel with a single receiving goroutine: its capacity, the values in
    flight (oldest first), whether the receiver is parked on it, and whether
    the oldest value in flight has been handed directly to the receiver, who
    was parked and has not run yet; a handed value does not occupy the
    buffer. *)
Record hchan (A : Type) := {
  dataqsiz : nat;
  qbuf : list A;
  recvq : bool;
  handed : bool
}.
Arguments dataqsiz {A} _.
Arguments qbuf {A} _.
Arguments recvq {A} _.
Arguments handed {A} _.

(** [make(chan A, n)]. *)
Definition makechan {A : Type} (n : nat) : hchan A :=
  {| dataqsiz := n; qbuf := []; recvq := false; handed := false |}.

(** The number of values sitting in the buffer. *)
Definition qcount {A : Type} (c : hchan A) : nat :=
  length (qbuf c) - (if handed c then 1 else 0).

(** Whether a send can proceed: never on the nil channel; otherwise when the
    receiver is parked or the buffer has room. *)
Definition can_send {A : Type} (ch : option (hchan A)) : bool :=
  match ch with
  | None => false
  | Some c => recvq c || (qcount c <? dataqsiz c)%nat
  end.

(** A send that can proceed: the value goes straight to the parked receiver,
    which is woken, or else to the back of the buffer. *)
Definition chansend {A : Type} (c : hchan A) (v : A) : hchan A :=
  if recvq c
  then {| dataqsiz := dataqsiz c; qbuf := qbuf c ++ [v]; recvq := false; handed := true |}
  else {| dataqsiz := dataqsiz c; qbuf := qbuf c ++ [v]; recvq := false; handed := handed c |}.

(** A receive by the channel's receiver: the oldest value in flight, if there
    is one; on an empty channel the receiver parks. *)
Definition chanrecv {A : Type} (c : hchan A) : hchan A * option A :=
  match qbuf c with
  | v :: rest =>
      ({| dataqsiz := dataqsiz c; qbuf := rest; recvq := false; handed := false |}, Some v)
  | [] =>
      ({| dataqsiz := dataqsiz c; qbuf := []; recvq := true; handed := false |}, None)
  end.

(** The receiver stops waiting on the channel (another case of its select
    proceeded, or it returned). *)
Definition unpark {A : Type} (c : hchan A) : hchan A :=
  {| dataqsiz := dataqsiz c; qbuf := qbuf c; recvq := false; handed := handed c |}.

(** What the receiving goroutine does to the channel, seen from a sender. *)
Inductive receiverAct :=
| Recv       (* it receives, or parks on the empty channel *)
| Leave.     (* it stops waiting *)

Definition receiver {A : Type} (c : hchan A) (a : receiverAct) : hchan A :=
  match a with
  | Recv => fst (chanrecv c)
  | Leave => unpark c
  end.

(** The states a channel can be in: a parked receiver means that nothing is
    in flight, a handed value is in flight, and the buffer holds no more than
    its capacity. *)
Definition chan_ok {A : Type} (c : hchan A) : Prop :=
  (recvq c = true -> qbuf c = []) /\
  (handed c = true -> qbuf c <> []) /\
  (qcount c <= dataqsiz c)%nat.

(** The outcome of a select statement. *)
Inductive selected :=
| Chosen (i : nat)     (* the i-th case, counted from 0 *)
| Default
| Parked.              (* no case can proceed and there is no default *)

(** The positions, counted from [i], of the cases that can proceed. *)
Fixpoint ready_from (i : nat) (ready : list bool) : list nat :=
  match ready with
  | [] => []
  | b :: rest => if b then i :: ready_from (S i) rest else ready_from (S i) rest
  end.

(** [selectgo]: among the cases that can proceed one is chosen by the
    scheduler's random number; without any, the default case runs if there is
    one, and the goroutine parks otherwise. *)
Definition selectgo (ready : list bool) (hasDefault : bool) (rnd : nat) : selected :=
  match ready_from 0 ready with
  | [] => if hasDefault then Default else Parked
  | i0 :: is' => Chosen (nth (rnd mod length (i0 :: is')) (i0 :: is') i0)
  end.

(** ** The lifecycle guard (client.RunState) *)

(** Modelled from the spec: the lifecycle guard embedded in the connection,
    [client.RunState], which ws_handler.go imports.  A connection is created
    Not-Started; Start fails with AlreadyStarted unless the state is
    Not-Started and otherwise moves to Running; Stop fails with NotRunning
    unless the state is Running and otherwise moves to Stopped; there is no
    restart after Stop. *)
Inductive RunState_t :=
| NotStarted
| Running
| Stopped.

Definition ErrAlreadyStarted : error := errorString "AlreadyStarted".
Definition ErrNotRunning : error := errorString "NotRunning".

(** Modelled from the spec: [RunState.Start]. *)
Definition RunState_Start (s : RunState_t) : RunState_t * option error :=
  match s with
  | NotStarted => (Running, None)
  | _ => (s, Some ErrAlreadyStarted)
  end.

(** Modelled from the spec: [RunState.Stop]. *)
Definition RunState_Stop (s : RunState_t) : RunState_t * option error :=
  match s with
  | Running => (Stopped, None)
  | _ => (s, Some ErrNotRunning)
  end.

(** ** The connection *)

Inductive level := LDebug | LInfo | LError.

(** Websocket message types written by the connection. *)
Inductive msgType := TextMessage | PingMessage | PongMessage.

(** A disconnect callback, by name. *)
Inductive callback := Callback (name : string).

(** What the connection does to the world around it, in order: logger calls,
    socket operations, callback invocations, goroutines started, and the
    responses the outbound channel accepted. *)
Inductive event :=
| EvLog (lvl : level) (msg : string)
| EvSent (resp : RPCResponse)                       (* writeChan accepted resp *)
| EvGoReadRoutine                                   (* go wsc.readRoutine(ctx) *)
| EvOnDisconnect (cb : callback) (addr : string)    (* wsc.onDisconnect(addr) *)
| EvCancel                                          (* wsc.cancel() *)
| EvSetReadLimit (n : Z)                            (* baseConn.SetReadLimit *)
| EvWriteMessage (t : msgType) (payload : list byte)(* baseConn.WriteMessage succeeded *)
| EvTickerStop.                                     (* pingTicker.Stop() *)

Definition Second : Z := 1000000000.

Definition defaultWSWriteChanCapacity : Z := 100.
Definition defaultWSWriteWait : Z := 10 * Second.
Definition defaultWSReadWait : Z := 30 * Second.
Definition defaultWSPingPeriod : Z := (defaultWSReadWait * 9) / 10.

(** [wsConnection].  [readRoutineQuit] tells whether that channel has been
    closed; [ctx] is the lazily created context with its cancel function;
    [trace] collects the connection's effects. *)
Record wsConnection := {
  RunState : RunState_t;
  remoteAddr : string;
  writeChan : option (hchan RPCResponse);
  readRoutineQuit : bool;
  funcMap : gmap string RPCFunc;
  writeChanCapacity : Z;
  writeWait : Z;
  readWait : Z;
  pingPeriod : Z;
  readLimit : Z;
  onDisconnect : option callback;
  ctx : option context;
  trace : list event
}.

Definition set_RunState (v : RunState_t) (c : wsConnection) : wsConnection :=
  {| RunState := v; remoteAddr := remoteAddr c; writeChan := writeChan c;
     readRoutineQuit := readRoutineQuit c; funcMap := funcMap c;
     writeChanCapacity := writeChanCapacity c; writeWait := writeWait c;
     readWait := readWait c; pingPeriod := pingPeriod c; readLimit := readLimit c;
     onDisconnect := onDisconnect c; ctx := ctx c; trace := trace c |}.

Definition set_writeChan (v : option (hchan RPCResponse)) (c : wsConnection) : wsConnection :=
  {| RunState := RunState c; remoteAddr := remoteAddr c; writeChan := v;
     readRoutineQuit := readRoutineQuit c; funcMap := funcMap c;
     writeChanCapacity := writeChanCapacity c; writeWait := writeWait c;
     readWait := readWait c; pingPeriod := pingPeriod c; readLimit := readLimit c;
     onDisconnect := onDisconnect c; ctx := ctx c; trace := trace c |}.

Definition set_readRoutineQuit (v : bool) (c : wsConnection) : wsConnection :=
  {| RunState := RunState c; remoteAddr := remoteAddr c; writeChan := writeChan c;
     readRoutineQuit := v; funcMap := funcMap c;
     writeChanCapacity := writeChanCapacity c; writeWait := writeWait c;
     readWait := readWait c; pingPeriod := pingPeriod c; readLimit := readLimit c;
     onDisconnect := onDisconnect c; ctx := ctx c; trace := trace c |}.

Definition set_writeChanCapacity (v : Z) (c : wsConnection) : wsConnection :=
  {| RunState := RunState c; remoteAddr := remoteAddr c; writeChan := writeChan c;
     readRoutineQuit := readRoutineQuit c; funcMap := funcMap c;
     writeChanCapacity := v; writeWait := writeWait c;
     readWait := readWait c; pingPeriod := pingPeriod c; readLimit := readLimit c;
     onDisconnect := onDisconnect c; ctx := ctx c; trace := trace c |}.

Definition set_writeWait (v : Z) (c : wsConnection) : wsConnection :=
  {| RunState := RunState c; remoteAddr := remoteAddr c; writeChan := writeChan c;
     readRoutineQuit := readRoutineQuit c; funcMap := funcMap c;
     writeChanCapacity := writeChanCapacity c; writeWait := v;
     readWait := readWait c; pingPeriod := pingPeriod c; readLimit := readLimit c;
     onDisconnect := onDisconnect c; ctx := ctx c; trace := trace c |}.

Definition set_readWait (v : Z) (c : wsConnection) : wsConnection :=
  {| RunState := RunState c; remoteAddr := remoteAddr c; writeChan := writeChan c;
     readRoutineQuit := readRoutineQuit c; funcMap := funcMap c;
     writeChanCapacity := writeChanCapacity c; writeWait := writeWait c;
     readWait := v; pingPeriod := pingPeriod c; readLimit := readLimit c;
     onDisconnect := onDisconnect c; ctx := ctx c; trace := trace c |}.

Definition set_pingPeriod (v : Z) (c : wsConnection) : wsConnection :=
  {| RunState := RunState c; remoteAddr := remoteAddr c; writeChan := writeChan c;
     readRoutineQuit := readRoutineQuit c; funcMap := funcMap c;
     writeChanCapacity := writeChanCapacity c; writeWait := writeWait c;
     readWait := readWait c; pingPeriod := v; readLimit := readLimit c;
     onDisconnect := onDisconnect c; ctx := ctx c; trace := trace c |}.

Definition set_readLimit (v : Z) (c : wsConnection) : wsConnection :=
  {| RunState := RunState c; remoteAddr := remoteAddr c; writeChan := writeChan c;
     readRoutineQuit := readRoutineQuit c; funcMap := funcMap c;
     writeChanCapacity := writeChanCapacity c; writeWait := writeWait c;
     readWait := readWait c; pingPeriod := pingPeriod c; readLimit := v;
     onDisconnect := onDisconnect c; ctx := ctx c; trace := trace c |}.

Definition set_onDisconnect (v : option callback) (c : wsConnection) : wsConnection :=
  {| RunState := RunState c; remoteAddr := remoteAddr c; writeChan := writeChan c;
     readRoutineQuit := readRoutineQuit c; funcMap := funcMap c;
     writeChanCapacity := writeChanCapacity c; writeWait := writeWait c;
     readWait := readWait c; pingPeriod := pingPeriod c; readLimit := readLimit c;
     onDisconnect := v; ctx := ctx c; trace := trace c |}.

Definition set_ctx (v : option context) (c : wsConnection) : wsConnection :=
  {| RunState := RunState c; remoteAddr := remoteAddr c; writeChan := writeChan c;
     readRoutineQuit := readRoutineQuit c; funcMap := funcMap c;
     writeChanCapacity := writeChanCapacity c; writeWait := writeWait c;
     readWait := readWait c; pingPeriod := pingPeriod c; readLimit := readLimit c;
     onDisconnect := onDisconnect c; ctx := v; trace := trace c |}.

(** Append an effect to the trace. *)
Definition emit (e : event) (c : wsConnection) : wsConnection :=
  {| RunState := RunState c; remoteAddr := remoteAddr c; writeChan := writeChan c;
     readRoutineQuit := readRoutineQuit c; funcMap := funcMap c;
     writeChanCapacity := writeChanCapacity c; writeWait := writeWait c;
     readWait := readWait c; pingPeriod := pingPeriod c; readLimit := readLimit c;
     onDisconnect := onDisconnect c; ctx := ctx c; trace := trace c ++ [e] |}.

(** The functional options of the constructor. *)
Inductive wsOption :=
| OnDisconnect (cb : option callback)
| WriteWait (d : Z)
| WriteChanCapacity (cap : Z)
| ReadWait (d : Z)
| PingPeriod (d : Z)
| ReadLimit (n : Z).

Definition apply_option (c : wsConnection) (o : wsOption) : wsConnection :=
  match o with
  | OnDisconnect cb => set_onDisconnect cb c
  | WriteWait d => set_writeWait d c
  | WriteChanCapacity cap => set_writeChanCapacity cap c
  | ReadWait d => set_readWait d c
  | PingPeriod d => set_pingPeriod d c
  | ReadLimit n => set_readLimit n c
  end.

(** [newWSConnection]: the defaults, then the options in order, then the read
    limit is handed to the socket.  The write channel is left nil. *)
Definition newWSConnection (remote : string) (fm : gmap string RPCFunc)
    (options : list wsOption) : wsConnection :=
  let wsc :=
    {| RunState := NotStarted; remoteAddr := remote; writeChan := None;
       readRoutineQuit := false; funcMap := fm;
       writeChanCapacity := defaultWSWriteChanCapacity;
       writeWait := defaultWSWriteWait; readWait := defaultWSReadWait;
       pingPeriod := defaultWSPingPeriod; readLimit := 0;
       onDisconnect := None; ctx := None; trace := [] |} in
  let wsc := fold_left apply_option options wsc in
  emit (EvSetReadLimit (readLimit wsc)) wsc.

(** [Stop]: nothing happens when the guard refuses; otherwise the callback, if
    any, is called with the remote address and the context, if it was ever
    created, is cancelled. *)
Definition Stop_via (guardStop : RunState_t -> RunState_t * option error)
    (wsc : wsConnection) : wsConnection * option error :=
  match guardStop (RunState wsc) with
  | (s, Some err) => (set_RunState s wsc, Some err)
  | (s, None) =>
      let wsc := set_RunState s wsc in
      let wsc := match onDisconnect wsc with
                 | Some cb => emit (EvOnDisconnect cb (remoteAddr wsc)) wsc
                 | None => wsc
                 end in
      let wsc := match ctx wsc with
                 | Some x => emit EvCancel (set_ctx (Some (cancel x)) wsc)
                 | None => wsc
                 end in
      (wsc, None)
  end.

Definition Stop : wsConnection -> wsConnection * option error :=
  Stop_via RunState_Stop.

(** [GetRemoteAddr]. *)
Definition GetRemoteAddr (wsc : wsConnection) : string := remoteAddr wsc.

(** [Context]: the connection's context, created on first use. *)
Definition Context_ (wsc : wsConnection) : wsConnection * context :=
  match ctx wsc with
  | Some x => (wsc, x)
  | None => (set_ctx (Some (WithCancel None)) wsc, WithCancel None)
  end.

(** ** Enqueueing on the outbound channel *)

(** The send case of the two selects below has been chosen: the channel takes
    the response. *)
Definition accept (wsc : wsConnection) (resp : RPCResponse) : wsConnection :=
  match writeChan wsc with
  | Some c => emit (EvSent resp) (set_writeChan (Some (chansend c resp)) wsc)
  | None => wsc
  end.

(** [WriteRPCResponse]: a select on [ctx.Done()] and on the send, without a
    default.  [None] means that no case can proceed: the caller stays parked. *)
Definition WriteRPCResponse (rnd : nat) (wsc : wsConnection) (ctx : context)
    (resp : RPCResponse) : option (wsConnection * option error) :=
  match selectgo [Done ctx; can_send (writeChan wsc)] false rnd with
  | Chosen 0 => Some (wsc, Err ctx)
  | Chosen _ => Some (accept wsc resp, None)
  | Default | Parked => None
  end.

(** [TryWriteRPCResponse]: the same select with a default case. *)
Definition TryWriteRPCResponse (rnd : nat) (wsc : wsConnection) (ctx : context)
    (resp : RPCResponse) : option (wsConnection * bool) :=
  match selectgo [Done ctx; can_send (writeChan wsc)] true rnd with
  | Chosen 0 => Some (wsc, false)
  | Chosen _ => Some (accept wsc resp, true)
  | Default => Some (wsc, false)
  | Parked => None
  end.

(** The writer goroutine acts on the outbound channel. *)
Definition drain (acts : list receiverAct) (wsc : wsConnection) : wsConnection :=
  set_writeChan (fold_left receiver acts <$> writeChan wsc) wsc.

(** A caller parked in [WriteRPCResponse] is woken whenever something
    happened; at each wake-up the supplied context has some state and the
    writer has acted on the channel. *)
Record wakeup := {
  w_rnd : nat;
  w_ctx : context;
  w_writer : list receiverAct
}.

(** [WriteRPCResponse] over time: the select is tried at each wake-up until a
    case proceeds.  [None]: still parked after all of them. *)
Fixpoint WriteRPCResponse_over (ws : list wakeup) (wsc : wsConnection)
    (resp : RPCResponse) : option (wsConnection * option error) :=
  match ws with
  | [] => None
  | w :: rest =>
      let wsc := drain (w_writer w) wsc in
      match WriteRPCResponse (w_rnd w) wsc (w_ctx w) resp with
      | Some r => Some r
      | None => WriteRPCResponse_over rest wsc resp
      end
  end.

(** ** The inbound loop *)

(** [readRoutine] enqueues with this context, not with the one it is given. *)
Definition writeCtx : context := Background.

(** What decoding a frame gives. *)
Inductive DecodeResult :=
| DecodeErr (err : error)
| Decoded (request : RPCRequest).

(** What [NextReader] gives: an error ([closeNormal] tells whether it is a
    close error with the normal-closure code), or a frame. *)
Inductive NextReaderResult :=
| ReadErr (closeNormal : bool) (err : error)
| Frame (d : DecodeResult).

(** The environment of one iteration of the inbound loop. *)
Record rtick := {
  rt_ctx : context;              (* the loop's context, when the loop head looks at it *)
  rt_deadline : option error;    (* what SetReadDeadline returns *)
  rt_next : NextReaderResult;    (* what the socket delivers *)
  rt_writer : list receiverAct;  (* what the writer did to writeChan before this iteration enqueues *)
  rt_rnd : nat                   (* the scheduler's random number *)
}.

(** How one pass through the loop body ends. *)
Inductive bodyResult :=
| BContinue                      (* next iteration *)
| BReturn                        (* readRoutine returns *)
| BParked                        (* parked for good in WriteRPCResponse *)
| BPanic (r : PanicValue).       (* a panic unwinds readRoutine *)

(** [if err := wsc.WriteRPCResponse(writeCtx, resp); err != nil { log }],
    then on to the next iteration. *)
Definition respond (t : rtick) (wsc : wsConnection) (resp : RPCResponse)
  : wsConnection * bodyResult :=
  match WriteRPCResponse (rt_rnd t) wsc writeCtx resp with
  | Some (wsc, Some _) => (emit (EvLog LError "error writing RPC response") wsc, BContinue)
  | Some (wsc, None) => (wsc, BContinue)
  | None => (wsc, BParked)
  end.

(** The four sentinels that make a request invalid. *)
Definition isInvalidRequest (e : option error) : bool :=
  match e with
  | Some (coreError ErrZeroOrNegativeHeight)
  | Some (coreError ErrZeroOrNegativePerPage)
  | Some (coreError ErrPageOutOfRange)
  | Some (coreError ErrInvalidRequest) => true
  | _ => false
  end.

Definition nilDereference : PanicValue :=
  PanicError (errorString "invalid memory address or nil pointer dereference").

(** The type switch on the handler's error.  Reading the fields of a nil
    [*RPCError] panics. *)
Definition responseOf (request : RPCRequest) (result : Value) (err : option error)
  : RPCResponse + PanicValue :=
  match err with
  | None => inl (NewRPCSuccessResponse (ID request) result)
  | Some (rpcErrorPtr (Some e)) =>
      inl (NewRPCErrorResponse (ID request) (Code e) (Message e) (Data e))
  | Some (rpcErrorPtr None) => inr nilDereference
  | Some e =>
      if isInvalidRequest (Unwrap e)
      then inl (RPCInvalidRequestError (ID request) e)
      else inl (RPCInternalError (ID request) e)
  end.

(** The arguments of the call: the request context, followed by the bound
    parameters when the request has any. *)
Definition callArgs (wsc : wsConnection) (rpcFunc : RPCFunc) (request : RPCRequest)
  : list Value + error :=
  let ctx := {| JSONReq := request; WSConn := remoteAddr wsc |} in
  let args := [ValueOf_Context ctx] in
  if (0 <? length (Params request))%nat
  then match jsonParamsToArgs rpcFunc (Params request) with
       | inr err => inr err
       | inl fnArgs => inl (args ++ fnArgs)
       end
  else inl args.

(** [if err := wsc.baseConn.SetReadDeadline(...); err != nil { log }]. *)
Definition setReadDeadline (t : rtick) (wsc : wsConnection) : wsConnection :=
  match rt_deadline t with
  | Some _ => emit (EvLog LError "failed to set read deadline") wsc
  | None => wsc
  end.

(** What the loop does with a decoded request: nothing for a notification;
    otherwise look the method up, bind the parameters, call the handler, and
    enqueue the response that the outcome maps to. *)
Definition dispatch (t : rtick) (wsc : wsConnection) (request : RPCRequest)
  : wsConnection * bodyResult :=
  match ID request with
  | None =>
      (emit (EvLog LDebug "WSJSONRPC received a notification, skipping...") wsc,
       BContinue)
  | Some _ =>
      match funcMap wsc !! Method request with
      | None => respond t wsc (RPCMethodNotFoundError (ID request))
      | Some rpcFunc =>
          match callArgs wsc rpcFunc request with
          | inr err =>
              respond t wsc
                (RPCInvalidParamsError (ID request)
                   (Errorf_w "error converting json params to arguments" err))
          | inl args =>
              match f rpcFunc args with
              | Panics r => (wsc, BPanic r)
              | Returns result err =>
                  let wsc := emit (EvLog LInfo "WSJSONRPC") wsc in
                  match responseOf request result err with
                  | inr r => (wsc, BPanic r)
                  | inl resp => respond t wsc resp
                  end
              end
          end
      end
  end.

(** One pass through the body of the [for] loop. *)
Definition loopBody (t : rtick) (wsc : wsConnection) : wsConnection * bodyResult :=
  match selectgo [Done (rt_ctx t)] true (rt_rnd t) with
  | Chosen _ => (wsc, BReturn)
  | _ =>
    let wsc := setReadDeadline t wsc in
    match rt_next t with
    | ReadErr closeNormal _ =>
        let wsc := if closeNormal
                   then emit (EvLog LInfo "Client closed the connection") wsc
                   else emit (EvLog LError "Failed to read request") wsc in
        let (wsc, serr) := Stop wsc in
        let wsc := match serr with
                   | Some _ => emit (EvLog LError "error closing websocket connection") wsc
                   | None => wsc
                   end in
        if readRoutineQuit wsc
        then (wsc, BPanic (PanicError (errorString "close of closed channel")))
        else (set_readRoutineQuit true wsc, BReturn)
    | Frame (DecodeErr err) =>
        respond t wsc (RPCParseError (Errorf_w "error unmarshaling request" err))
    | Frame (Decoded request) => dispatch t wsc request
    end
  end.

(** [err, ok := r.(error); if !ok { err = fmt.Errorf("WSJSONRPC: %v", r) }]. *)
Definition panicError (r : PanicValue) : error :=
  match r with
  | PanicError e => e
  | PanicAny v => errorString ("WSJSONRPC: " ++ v)
  end.

(** The deferred function, when a panic [r] reaches it: log, enqueue an
    internal error with id -1, start [readRoutine] again.  The boolean tells
    whether the new [readRoutine] was started; it is not when the enqueue
    stays parked. *)
Definition recovered (t : rtick) (wsc : wsConnection) (r : PanicValue)
  : wsConnection * bool :=
  let err := panicError r in
  let wsc := emit (EvLog LError "Panic in WSJSONRPC handler") wsc in
  match WriteRPCResponse (rt_rnd t) wsc writeCtx
          (RPCInternalError (Some (JSONRPCIntID (-1))) err) with
  | Some (wsc, Some _) =>
      (emit EvGoReadRoutine (emit (EvLog LError "error writing RPC response") wsc), true)
  | Some (wsc, None) => (emit EvGoReadRoutine wsc, true)
  | None => (wsc, false)
  end.

(** Where the inbound side of the connection stands. *)
Inductive rstatus :=
| Reading          (* a readRoutine is at the head of its loop *)
| Returned         (* readRoutine returned and nothing replaced it *)
| ParkedInWrite.   (* readRoutine is parked in WriteRPCResponse *)

(** [readRoutine], one tick per iteration.  Before the iteration enqueues,
    the writer has acted on the outbound channel as [rt_writer] tells; a loop
    whose enqueue cannot proceed then is parked in it, and
    [WriteRPCResponse_over] tells how a parked enqueue goes on.  After a
    recovered panic the loop that the deferred function started takes the
    remaining ticks. *)
Fixpoint readRoutine (ticks : list rtick) (wsc : wsConnection)
  : wsConnection * rstatus :=
  match ticks with
  | [] => (wsc, Reading)
  | t :: rest =>
      match loopBody t (drain (rt_writer t) wsc) with
      | (wsc, BContinue) => readRoutine rest wsc
      | (wsc, BReturn) => (wsc, Returned)
      | (wsc, BParked) => (wsc, ParkedInWrite)
      | (wsc, BPanic r) =>
          match recovered t wsc r with
          | (wsc, true) => readRoutine rest wsc
          | (wsc, false) => (wsc, ParkedInWrite)
          end
      end
  end.

(** ** The write multiplexer *)

(** The case of the select in [writeRoutine] that proceeds, with the value
    received where there is one. *)
Inductive wcase :=
| CtxDone                        (* <-ctx.Done() *)
| ReaderQuit                     (* <-wsc.readRoutineQuit *)
| Pong (m : string)              (* m := <-pongs *)
| PingTick                       (* <-pingTicker.C *)
| Msg (msg : RPCResponse).       (* msg := <-wsc.writeChan *)

(** The environment of one iteration of the write loop: which case proceeds,
    and what the socket answers. *)
Record wtick := {
  wt_case : wcase;
  wt_deadline : option error;     (* what SetWriteDeadline returns *)
  wt_write : option error         (* what WriteMessage returns *)
}.

(** [writeMessageWithDeadline]: set the deadline, then write. *)
Definition writeMessageWithDeadline (t : wtick) (wsc : wsConnection)
    (mt : msgType) (msg : list byte) : wsConnection * option error :=
  match wt_deadline t with
  | Some err => (wsc, Some err)
  | None =>
      match wt_write t with
      | Some err => (wsc, Some err)
      | None => (emit (EvWriteMessage mt msg) wsc, None)
      end
  end.

(** Where the write loop stands. *)
Inductive wstatus :=
| Writing            (* at the head of the loop *)
| WReturned.         (* writeRoutine returned *)

(** How a call of [Start] stands. *)
Inductive StartResult :=
| StartErr (err : error)       (* the guard refused *)
| StartPanic                   (* make(chan) with a size out of range *)
| StartTickerPanic             (* time.NewTicker in writeRoutine, period not positive *)
| StartBlocked                 (* inside the loop of writeRoutine *)
| StartNil.                    (* writeRoutine returned, and so did Start *)

(** [time.NewTicker(d)] returns a ticker when [d] is positive and panics
    otherwise; the boolean tells whether it returns. *)
Definition NewTicker (d : Z) : bool := (0 <? d)%Z.

Section Writer.

(** [json.MarshalIndent(msg, "", "  ")]. *)
Variable MarshalIndent : RPCResponse -> list byte + error.

(** The largest [n] for which [make(chan rpctypes.RPCResponse, n)] is in
    range on the platform: the runtime's allocation limit, less the channel
    header, divided by the size of a response.  [make] panics for a
    negative [n] and for an [n] beyond it. *)
Variable maxChanSize : Z.

(** One pass through the select of the write loop; the boolean tells
    whether the loop goes on. *)
Definition writeStep (t : wtick) (wsc : wsConnection) : wsConnection * bool :=
  match wt_case t with
  | CtxDone => (wsc, false)
  | ReaderQuit => (wsc, false)
  | Pong m =>
      match writeMessageWithDeadline t wsc PongMessage (list_byte_of_string m) with
      | (wsc, Some _) =>
          (emit (EvLog LInfo "Failed to write pong (client may disconnect)") wsc, true)
      | (wsc, None) => (wsc, true)
      end
  | PingTick =>
      match writeMessageWithDeadline t wsc PingMessage [] with
      | (wsc, Some _) => (emit (EvLog LError "Failed to write ping") wsc, false)
      | (wsc, None) => (wsc, true)
      end
  | Msg msg =>
      match MarshalIndent msg with
      | inr _ => (emit (EvLog LError "Failed to marshal RPCResponse to JSON") wsc, true)
      | inl jsonBytes =>
          match writeMessageWithDeadline t wsc TextMessage jsonBytes with
          | (wsc, Some _) => (emit (EvLog LError "Failed to write response") wsc, false)
          | (wsc, None) => (wsc, true)
          end
      end
  end.

(** [writeRoutine] from the head of its loop on, one tick per iteration;
    the ticker is stopped when the function returns.  What the function does
    before the loop is kept apart: the ticker is [NewTicker], which [Start]
    below runs on the way into the loop and which panics, before the
    deferred stop is registered, when the ping period is not positive. *)
Fixpoint writeRoutine (ticks : list wtick) (wsc : wsConnection)
  : wsConnection * wstatus :=
  match ticks with
  | [] => (wsc, Writing)
  | t :: rest =>
      match writeStep t wsc with
      | (wsc, true) => writeRoutine rest wsc
      | (wsc, false) => (emit EvTickerStop wsc, WReturned)
      end
  end.

(** [Start]: guard, channel, reader goroutine, then [writeRoutine] in the
    caller's goroutine: its ticker first, then its loop.  [make] panics
    when the capacity is out of range, after the guard has let the call
    through; [time.NewTicker] panics when the ping period is not positive,
    after the channel is made and the reader goroutine is launched. *)
Definition Start (wticks : list wtick) (wsc : wsConnection)
  : wsConnection * StartResult :=
  match RunState_Start (RunState wsc) with
  | (s, Some err) => (set_RunState s wsc, StartErr err)
  | (s, None) =>
      let wsc := set_RunState s wsc in
      if ((writeChanCapacity wsc <? 0) || (maxChanSize <? writeChanCapacity wsc))%Z
      then (wsc, StartPanic)
      else
        let wsc := set_writeChan
                     (Some (makechan (Z.to_nat (writeChanCapacity wsc)))) wsc in
        let wsc := emit EvGoReadRoutine wsc in
        if NewTicker (pingPeriod wsc)
        then match writeRoutine wticks wsc with
             | (wsc, WReturned) => (wsc, StartNil)
             | (wsc, Writing) => (wsc, StartBlocked)
             end
        else (wsc, StartTickerPanic)
  end.

End Writer.

(** ** Reading a trace *)

(** The responses the outbound channel accepted, in order. *)
Fixpoint sent (tr : list event) : list RPCResponse :=
  match tr with
  | [] => []
  | EvSent resp :: rest => resp :: sent rest
  | _ :: rest => sent rest
  end.

(** How many responses the outbound channel has accepted. *)
Definition nsent (wsc : wsConnection) : nat := length (sent (trace wsc)).
Arguments nsent : simpl never.

(** The addresses the disconnect callback was called with, in order. *)
Fixpoint disconnects (tr : list event) : list string :=
  match tr with
  | [] => []
  | EvOnDisconnect _ addr :: rest => addr :: disconnects rest
  | _ :: rest => disconnects rest
  end.

(** The payloads of the text frames written to the socket, in order. *)
Fixpoint textFrames (tr : list event) : list (list byte) :=
  match tr with
  | [] => []
  | EvWriteMessage TextMessage payload :: rest => payload :: textFrames rest
  | _ :: rest => textFrames rest
  end.

(** A tick that delivers a notification: a decoded request without id. *)
Definition isNotification (t : rtick) : bool :=
  match rt_next t with
  | Frame (Decoded request) =>
      match ID request with
      | None => true
      | Some _ => false
      end
  | _ => false
  end.

(** The sentinels that the loop takes for an invalid request. *)
Definition badRequestSentinel (s : coreErr) : bool :=
  match s with
  | ErrZeroOrNegativeHeight | ErrZeroOrNegativePerPage
  | ErrPageOutOfRange | ErrInvalidRequest => true
  | ErrHeightExceedsChainHead | ErrHeightNotAvailable => false
  end.

(** The state of the connection at each wake-up of a parked enqueue. *)
Definition drain_all (ws : list wakeup) (wsc : wsConnection) : wsConnection :=
  fold_left (fun c w => drain (w_writer w) c) ws wsc.

(** ** Sample inputs *)

Module Sample.

Definition result42 : Value := ValueOf_any [x34; x32]%byte.

(** A handler that succeeds, one that panics, one that returns a wrapped
    sentinel, and one with a parameter that counts the bytes it is given. *)
Definition health : RPCFunc :=
  {| f := fun _ => Returns result42 None;
     bind := fun raw => inl [ValueOf_any raw] |}.

Definition boom : RPCFunc :=
  {| f := fun _ => Panics (PanicAny "boom");
     bind := fun raw => inl [ValueOf_any raw] |}.

Definition block : RPCFunc :=
  {| f := fun args =>
            match args with
            | [_; _] => Returns result42
                          (Some (Errorf_w "block" (coreError ErrZeroOrNegativeHeight)))
            | _ => Panics (PanicAny "reflect: Call with too few input arguments")
            end;
     bind := fun raw =>
               match raw with
               | [x30]%byte => inr (errorString "height must be greater than 0")
               | _ => inl [ValueOf_any raw]
               end |}.

Definition routes : gmap string RPCFunc :=
  <["health" := health]> (<["boom" := boom]> (<["block" := block]> ∅)).

Definition marshal (resp : RPCResponse) : list byte + error :=
  match rID resp with
  | Some (JSONRPCIntID n) => inl [x7b; x7d]%byte
  | _ => inr (errorString "json: unsupported value")
  end.

Definition cb : callback := Callback "unsubscribe".

(** A platform on which channels of up to 2^40 responses are in range. *)
Definition maxChanSize : Z := 2 ^ 40.

(** A fresh connection with a callback and an outbound queue of one. *)
Definition fresh : wsConnection :=
  newWSConnection "10.0.0.7:4242" routes [OnDisconnect (Some cb); WriteChanCapacity 1].

(** The same connection once Start has created the channel and launched
    the loops, and its context has been asked for. *)
Definition running : wsConnection :=
  fst (Context_ (fst (Start marshal maxChanSize [] fresh))).

Definition req (id : option jsonrpcid) (method : string) (params : RawMessage)
  : RPCRequest := {| ID := id; Method := method; Params := params |}.

Definition frame (request : RPCRequest) : rtick :=
  {| rt_ctx := WithCancel None; rt_deadline := None;
     rt_next := Frame (Decoded request); rt_writer := []; rt_rnd := 0 |}.

Definition id7 : option jsonrpcid := Some (JSONRPCIntID 7).

Definition pending : RPCResponse := NewRPCSuccessResponse id7 result42.

(** The running connection with its queue full: one response is buffered
    and the writer is not waiting. *)
Definition full : wsConnection := accept running pending.

(** The full connection after Stop: the token has fired. *)
Definition stopped_full : wsConnection := fst (Stop full).

Definition cancelled : context := WithCancel (Some Canceled).

End Sample.

(** ** The options, one kind at a time *)

(** Whether two options set the same field. *)
Definition same_kind (o o' : wsOption) : bool :=
  match o, o' with
  | OnDisconnect _, OnDisconnect _
  | WriteWait _, WriteWait _
  | WriteChanCapacity _, WriteChanCapacity _
  | ReadWait _, ReadWait _
  | PingPeriod _, PingPeriod _
  | ReadLimit _, ReadLimit _ => true
  | _, _ => false
  end.

(** The connection has the value of the option in the option's field. *)
Definition configured (o : wsOption) (c : wsConnection) : Prop :=
  match o with
  | OnDisconnect cb => onDisconnect c = cb
  | WriteWait d => writeWait c = d
  | WriteChanCapacity cap => writeChanCapacity c = cap
  | ReadWait d => readWait c = d
  | PingPeriod d => pingPeriod c = d
  | ReadLimit n => readLimit c = n
  end.

(** What [newWSConnection] sets before it applies the options. *)
Definition defaultOptions : list wsOption :=
  [ OnDisconnect None; WriteWait defaultWSWriteWait;
    WriteChanCapacity defaultWSWriteChanCapacity; ReadWait defaultWSReadWait;
    PingPeriod defaultWSPingPeriod; ReadLimit 0 ].

(** ** The ping handler of the write loop *)

(** The handler that [writeRoutine] installs for the peer's pings: a send
    to the relay channel in a select with an empty default case. *)
Definition pingHandler (rnd : nat) (pongs : hchan string) (m : string) : hchan string :=
  match selectgo [can_send (Some pongs)] true rnd with
  | Chosen _ => chansend pongs m
  | Default | Parked => pongs
  end.

(** ** Calls in a row *)

(** [TryWriteRPCResponse] called once for each response, with the same
    context; the answers in order. *)
Fixpoint TryWrite_all (calls : list (nat * RPCResponse)) (ctx : context)
    (wsc : wsConnection) : wsConnection * list bool :=
  match calls with
  | [] => (wsc, [])
  | (rnd, resp) :: rest =>
      match TryWriteRPCResponse rnd wsc ctx resp with
      | Some (wsc, b) =>
          let (wsc, bs) := TryWrite_all rest ctx wsc in (wsc, b :: bs)
      | None => (wsc, [])
      end
  end.

(** ** What the connection's code does to a connection *)

(** The steps by which the methods and the two loops change a connection
    once it is constructed and started. *)
Inductive move : wsConnection -> wsConnection -> Prop :=
| move_log lvl msg w : move w (emit (EvLog lvl msg) w)
| move_go w : move w (emit EvGoReadRoutine w)
| move_frame mt payload w : move w (emit (EvWriteMessage mt payload) w)
| move_ticker w : move w (emit EvTickerStop w)
| move_accept resp w : can_send (writeChan w) = true -> move w (accept w resp)
| move_drain acts w : move w (drain acts w)
| move_Stop w : move w (fst (Stop w))
| move_Context w : move w (fst (Context_ w))
| move_quit w : move w (set_readRoutineQuit true w).

(** The part of a connection that is configured at construction. *)
Definition config (w : wsConnection)
  : string * gmap string RPCFunc * Z * Z * Z * Z * Z * option callback :=
  (remoteAddr w, funcMap w, writeChanCapacity w, writeWait w, readWait w,
   pingPeriod w, readLimit w, onDisconnect w).

(** The addresses with which the callback is due to have been called. *)
Definition callbackDue (w : wsConnection) : list string :=
  match RunState w, onDisconnect w with
  | Stopped, Some _ => [remoteAddr w]
  | _, _ => []
  end.

(** The outbound channel exists, is in order and has capacity [n]. *)
Definition queueWithin (n : nat) (w : wsConnection) : Prop :=
  exists c, writeChan w = Some c /\ chan_ok c /\ dataqsiz c = n.

(** ** The two loops together *)

(** Whose turn it is: one iteration of the inbound loop, or one of the write
    loop. *)
Inductive turn :=
| ReadTurn (t : rtick)
| WriteTurn (t : wtick).

(** The effects of the write loop's iterations: logger calls and frames. *)
Definition writerEvent (e : event) : Prop :=
  match e with
  | EvLog _ _ | EvWriteMessage _ _ => True
  | _ => False
  end.

(** Setting the deadline or writing the frame fails at this tick. *)
Definition failedWrite (t : wtick) : bool :=
  match wt_deadline t, wt_write t with
  | None, None => false
  | _, _ => true
  end.

Section Serving.

Variable MarshalIndent : RPCResponse -> list byte + error.

(** The text frame that an iteration of the write loop puts on the socket. *)
Definition textOf (t : wtick) : option (list byte) :=
  match wt_case t with
  | Msg msg =>
      match MarshalIndent msg with
      | inl jsonBytes => if failedWrite t then None else Some jsonBytes
      | inr _ => None
      end
  | _ => None
  end.

(** The iterations at which the write loop returns. *)
Definition endsLoop (t : wtick) : bool :=
  match wt_case t with
  | CtxDone | ReaderQuit => true
  | Pong _ => false
  | PingTick => failedWrite t
  | Msg msg =>
      match MarshalIndent msg with
      | inl _ => failedWrite t
      | inr _ => false
      end
  end.

(** A started connection serving: the inbound loop and the write loop take
    turns, one iteration at a time, until the write loop returns.  A turn of
    the inbound loop is lost when no [readRoutine] is at the head of its
    loop. *)
Fixpoint serve (turns : list turn) (wsc : wsConnection) (rs : rstatus)
  : wsConnection * rstatus * wstatus :=
  match turns with
  | [] => (wsc, rs, Writing)
  | ReadTurn t :: rest =>
      match rs with
      | Reading => let (w, rs') := readRoutine [t] wsc in serve rest w rs'
      | Returned | ParkedInWrite => serve rest wsc rs
      end
  | WriteTurn t :: rest =>
      match writeStep MarshalIndent t wsc with
      | (w, true) => serve rest w rs
      | (w, false) => (emit EvTickerStop w, rs, WReturned)
      end
  end.

End Serving.

(** ** The manager *)

(** [WebsocketManager]: the registry, the logger (by name) and the options
    that every connection gets.  The upgrader accepts every origin. *)
Record WebsocketManager := {
  wm_funcMap : gmap string RPCFunc;
  wm_logger : string;
  wm_wsConnOptions : list wsOption
}.


Definition CheckOrigin (wm : WebsocketManager) (origin : string) : bool := true.

(** [SetLogger]. *)
Definition SetLogger (l : string) (wm : WebsocketManager) : WebsocketManager :=
  {| wm_funcMap := wm_funcMap wm; wm_logger := l;
     wm_wsConnOptions := wm_wsConnOptions wm |}.



Section Handler.

Variable MarshalIndent : RPCResponse -> list byte + error.
Variable maxChanSize : Z.



End Handler.

(* ===================================================================== *)
(** * Part II: properties *)
(* ===================================================================== *)

(** ** Select *)

Lemma selectgo_two (d s hasDefault : bool) (rnd : nat) :
  selectgo [d; s] hasDefault rnd =
  match d, s with
  | false, false => if hasDefault then Default else Parked
  | true, false => Chosen 0
  | false, true => Chosen 1
  | true, true => Chosen (rnd mod 2)
  end.
Proof.
  unfold selectgo. destruct d, s; cbn [ready_from length]; try reflexivity.
  pose proof (Nat.mod_upper_bound rnd 2 ltac:(lia)) as Hlt.
  destruct (rnd mod 2) as [|[|k]] eqn:E; cbn; try reflexivity; lia.
Qed.

Lemma selectgo_one (d hasDefault : bool) (rnd : nat) :
  selectgo [d] hasDefault rnd =
  if d then Chosen 0 else if hasDefault then Default else Parked.
Proof.
  unfold selectgo. destruct d; reflexivity.
Qed.

(** ** The two enqueue operations at one instant *)

Lemma TryWriteRPCResponse_cases rnd wsc ctx resp :
  TryWriteRPCResponse rnd wsc ctx resp =
  match Done ctx, can_send (writeChan wsc) with
  | false, false => Some (wsc, false)
  | true, false => Some (wsc, false)
  | false, true => Some (accept wsc resp, true)
  | true, true => if rnd mod 2 =? 0 then Some (wsc, false)
                  else Some (accept wsc resp, true)
  end.
Proof.
  unfold TryWriteRPCResponse. rewrite selectgo_two.
  destruct (Done ctx), (can_send (writeChan wsc)); try reflexivity.
  destruct (rnd mod 2); reflexivity.
Qed.

Lemma WriteRPCResponse_cases rnd wsc ctx resp :
  WriteRPCResponse rnd wsc ctx resp =
  match Done ctx, can_send (writeChan wsc) with
  | false, false => None
  | true, false => Some (wsc, Err ctx)
  | false, true => Some (accept wsc resp, None)
  | true, true => if rnd mod 2 =? 0 then Some (wsc, Err ctx)
                  else Some (accept wsc resp, None)
  end.
Proof.
  unfold WriteRPCResponse. rewrite selectgo_two.
  destruct (Done ctx), (can_send (writeChan wsc)); try reflexivity.
  destruct (rnd mod 2); reflexivity.
Qed.

Lemma Done_Err ctx : Done ctx = true -> exists e, Err ctx = Some e.
Proof. destruct ctx as [|[e|]]; cbn; try discriminate. eauto. Qed.

Lemma Err_Done ctx e : Err ctx = Some e -> Done ctx = true.
Proof. destruct ctx as [|[e'|]]; cbn; congruence. Qed.

(** With the background context only the send can proceed: the enqueue of
    the inbound loop succeeds or stays parked, whatever the random number. *)
Lemma WriteRPCResponse_writeCtx rnd wsc resp :
  WriteRPCResponse rnd wsc writeCtx resp =
  if can_send (writeChan wsc) then Some (accept wsc resp, None) else None.
Proof. rewrite WriteRPCResponse_cases. cbn. now destruct (can_send _). Qed.

Lemma respond_cases t wsc resp :
  respond t wsc resp =
  if can_send (writeChan wsc) then (accept wsc resp, BContinue) else (wsc, BParked).
Proof.
  unfold respond. rewrite WriteRPCResponse_writeCtx. now destruct (can_send _).
Qed.

(** ** The blocking enqueue over time *)

Lemma drain_all_app ws1 ws2 wsc :
  drain_all (ws1 ++ ws2) wsc = drain_all ws2 (drain_all ws1 wsc).
Proof. unfold drain_all. apply fold_left_app. Qed.

Lemma over_app_None pre rest wsc resp :
  WriteRPCResponse_over pre wsc resp = None ->
  WriteRPCResponse_over (pre ++ rest) wsc resp =
  WriteRPCResponse_over rest (drain_all pre wsc) resp.
Proof.
  revert wsc. induction pre as [|w pre IH]; intros wsc H; [reflexivity|].
  cbn in *. destruct (WriteRPCResponse _ _ _ _); [discriminate|]. now apply IH.
Qed.

(** A parked enqueue that ends does so at the first wake-up at which its
    select can proceed. *)
Lemma over_Some_split ws wsc resp r :
  WriteRPCResponse_over ws wsc resp = Some r ->
  exists pre w post,
    ws = pre ++ w :: post /\
    WriteRPCResponse_over pre wsc resp = None /\
    WriteRPCResponse (w_rnd w) (drain_all (pre ++ [w]) wsc) (w_ctx w) resp = Some r.
Proof.
  revert wsc. induction ws as [|w ws IH]; intros wsc H; [discriminate|].
  cbn in H.
  destruct (WriteRPCResponse (w_rnd w) (drain (w_writer w) wsc) (w_ctx w) resp) eqn:E.
  - exists [], w, ws. cbn. repeat split; congruence.
  - destruct (IH _ H) as (pre & w' & post & -> & Hpre & Hw).
    exists (w :: pre), w', post. cbn. rewrite E. repeat split; assumption.
Qed.

Lemma over_None_iff ws wsc resp :
  WriteRPCResponse_over ws wsc resp = None <->
  forall pre w post, ws = pre ++ w :: post ->
    WriteRPCResponse (w_rnd w) (drain_all (pre ++ [w]) wsc) (w_ctx w) resp = None.
Proof.
  revert wsc. induction ws as [|w ws IH]; intros wsc; cbn.
  - split; [|reflexivity]. intros _ [|? ?] ? ? ?; discriminate.
  - split.
    + intros H pre w' post Heq.
      destruct (WriteRPCResponse (w_rnd w) (drain (w_writer w) wsc) (w_ctx w) resp)
        eqn:E; [discriminate|].
      destruct pre as [|p pre]; cbn in Heq; injection Heq as <- Heq.
      * exact E.
      * cbn. apply (proj1 (IH _) H pre w' post Heq).
    + intros H.
      assert (E : WriteRPCResponse (w_rnd w) (drain (w_writer w) wsc) (w_ctx w) resp
                  = None) by exact (H [] w ws eq_refl).
      rewrite E. apply IH. intros pre w' post ->. apply (H (w :: pre) w' post eq_refl).
Qed.

(** ** Channels *)

(** A channel refuses a send exactly when no receiver is parked on it and
    its buffer is full. *)
Lemma can_send_false {A : Type} (c : hchan A) :
  can_send (Some c) = false <-> recvq c = false /\ (dataqsiz c <= qcount c)%nat.
Proof.
  unfold can_send. rewrite orb_false_iff, Nat.ltb_ge. reflexivity.
Qed.

Lemma chan_ok_makechan {A : Type} (n : nat) : chan_ok (@makechan A n).
Proof. unfold chan_ok, qcount. cbn. split_and!; [discriminate|discriminate|lia]. Qed.

(** A send that can proceed keeps the channel within its capacity. *)
Lemma chan_ok_chansend {A : Type} (c : hchan A) (v : A) :
  chan_ok c -> can_send (Some c) = true -> chan_ok (chansend c v).
Proof.
  unfold chan_ok, can_send, chansend, qcount. intros (Hr & Hh & Hq) Hs.
  destruct (recvq c) eqn:Er; cbn.
  - rewrite (Hr eq_refl). cbn. split_and!; [discriminate|discriminate|lia].
  - cbn in Hs. apply Nat.ltb_lt in Hs. rewrite length_app. cbn.
    split_and!; [discriminate| |].
    + intros _ H. now apply app_eq_nil in H as [_ H].
    + destruct (handed c); [|lia].
      destruct (qbuf c); [now destruct (Hh eq_refl)|cbn in *; lia].
Qed.

Lemma chan_ok_receiver {A : Type} (c : hchan A) (a : receiverAct) :
  chan_ok c -> chan_ok (receiver c a).
Proof.
  unfold chan_ok, receiver, chanrecv, unpark, qcount. intros (Hr & Hh & Hq).
  destruct a.
  - destruct (qbuf c) as [|v rest]; cbn.
    + split_and!; [reflexivity|discriminate|lia].
    + split_and!; [discriminate|discriminate|].
      destruct (handed c); cbn in *; lia.
  - cbn. split_and!; [discriminate|assumption|assumption].
Qed.

Lemma drain_nil wsc : drain [] wsc = wsc.
Proof. destruct wsc as [? ? [c|] ? ? ? ? ? ? ? ? ? ?]; reflexivity. Qed.

Lemma drain_no_chan acts wsc : writeChan wsc = None -> drain acts wsc = wsc.
Proof.
  destruct wsc as [? ? [c|] ? ? ? ? ? ? ? ? ? ?]; cbn; [discriminate|reflexivity].
Qed.

Lemma drain_all_no_chan ws wsc : writeChan wsc = None -> drain_all ws wsc = wsc.
Proof.
  intros H. induction ws as [|w ws IH]; [reflexivity|].
  unfold drain_all in *. cbn. now rewrite drain_no_chan.
Qed.

(** ** C8: the two enqueue operations *)

(** C8 (as amended).  [TryWriteRPCResponse] never parks.  It returns false,
    leaving the connection as it is, when the outbound channel cannot take
    the response: it is nil, or no receiver waits on it and its buffer is at
    capacity.  When the channel can take the response and the context is not
    cancelled, the response is enqueued and true is returned.  When the
    channel can take it and the context is already cancelled, both cases of
    the select can proceed and the random choice decides between returning
    false and enqueueing with true.  [WriteRPCResponse] stays parked as long
    as the context is not cancelled and the channel cannot take the
    response; it returns nil only by enqueueing at the first wake-up at which
    the select proceeds, and an error only when the context is cancelled at
    that wake-up, the error being the context's. *)
Theorem enqueue_select_semantics
    (rnd : nat) (wsc : wsConnection) (ctx : context) (resp : RPCResponse)
    (ws : list wakeup) :
  (exists w b, TryWriteRPCResponse rnd wsc ctx resp = Some (w, b)) /\
  (can_send (writeChan wsc) = false ->
     TryWriteRPCResponse rnd wsc ctx resp = Some (wsc, false)) /\
  (forall c, writeChan wsc = Some c -> recvq c = false ->
     (dataqsiz c <= qcount c)%nat ->
     TryWriteRPCResponse rnd wsc ctx resp = Some (wsc, false)) /\
  (can_send (writeChan wsc) = true -> Done ctx = false ->
     TryWriteRPCResponse rnd wsc ctx resp = Some (accept wsc resp, true)) /\
  (can_send (writeChan wsc) = true -> Done ctx = true ->
     TryWriteRPCResponse rnd wsc ctx resp =
     if rnd mod 2 =? 0 then Some (wsc, false) else Some (accept wsc resp, true)) /\
  (WriteRPCResponse_over ws wsc resp = None <->
     forall pre w post, ws = pre ++ w :: post ->
       Done (w_ctx w) = false /\
       can_send (writeChan (drain_all (pre ++ [w]) wsc)) = false) /\
  (forall w', WriteRPCResponse_over ws wsc resp = Some (w', None) ->
     exists pre w post,
       ws = pre ++ w :: post /\
       WriteRPCResponse_over pre wsc resp = None /\
       can_send (writeChan (drain_all (pre ++ [w]) wsc)) = true /\
       w' = accept (drain_all (pre ++ [w]) wsc) resp) /\
  (forall w' e, WriteRPCResponse_over ws wsc resp = Some (w', Some e) ->
     exists pre w post,
       ws = pre ++ w :: post /\
       WriteRPCResponse_over pre wsc resp = None /\
       Done (w_ctx w) = true /\ Err (w_ctx w) = Some e /\
       w' = drain_all (pre ++ [w]) wsc).
Proof.
  pose proof (TryWriteRPCResponse_cases rnd wsc ctx resp) as HT.
  split_and!.
  - rewrite HT. destruct (Done ctx), (can_send (writeChan wsc)); eauto.
    destruct (rnd mod 2 =? 0); eauto.
  - intros Hs. rewrite HT, Hs. now destruct (Done ctx).
  - intros c Hc Hr Hfull. rewrite HT, Hc.
    rewrite (proj2 (can_send_false c) (conj Hr Hfull)). now destruct (Done ctx).
  - intros Hs Hd. now rewrite HT, Hs, Hd.
  - intros Hs Hd. now rewrite HT, Hs, Hd.
  - clear HT. rewrite over_None_iff. split; intros H pre w post Heq.
    + specialize (H pre w post Heq). rewrite WriteRPCResponse_cases in H.
      destruct (Done (w_ctx w)), (can_send _); try discriminate; [|auto].
      destruct (_ =? _); discriminate.
    + destruct (H pre w post Heq) as [Hd Hs].
      now rewrite WriteRPCResponse_cases, Hd, Hs.
  - clear HT. intros w' H. destruct (over_Some_split _ _ _ _ H) as (pre & w & post & -> & Hp & Hw).
    exists pre, w, post. rewrite WriteRPCResponse_cases in Hw.
    destruct (Done (w_ctx w)) eqn:Hd, (can_send _) eqn:Hs.
    + destruct (_ =? _).
      * destruct (Done_Err _ Hd) as [e He]. rewrite He in Hw. discriminate.
      * injection Hw as <-. auto.
    + destruct (Done_Err _ Hd) as [e He]. rewrite He in Hw. discriminate.
    + injection Hw as <-. auto.
    + discriminate.
  - clear HT. intros w' e H.
    destruct (over_Some_split _ _ _ _ H) as (pre & w & post & -> & Hp & Hw).
    exists pre, w, post. rewrite WriteRPCResponse_cases in Hw.
    destruct (Done (w_ctx w)) eqn:Hd, (can_send _) eqn:Hs; try discriminate.
    + destruct (_ =? _); [|discriminate]. injection Hw as <- He. auto.
    + injection Hw as <- He. auto.
Qed.

(** C8 without the amendment fails: with a cancelled context and room in
    the queue, [TryWriteRPCResponse] does not return false for every random
    choice of the select. *)
Lemma TryWrite_cancelled_may_enqueue :
  ~ (forall rnd, Done Sample.cancelled = true ->
       exists w, TryWriteRPCResponse rnd Sample.running Sample.cancelled
                   Sample.pending = Some (w, false)).
Proof.
  intros H. destruct (H 1 eq_refl) as [w Hw].
  rewrite TryWriteRPCResponse_cases in Hw. vm_compute in Hw. discriminate.
Qed.

Lemma enqueue_select_semantics_witness :
  TryWriteRPCResponse 0 Sample.full Sample.cancelled Sample.pending
    = Some (Sample.full, false) /\
  TryWriteRPCResponse 0 Sample.running Background Sample.pending
    = Some (accept Sample.running Sample.pending, true) /\
  TryWriteRPCResponse 1 Sample.running Sample.cancelled Sample.pending
    = Some (accept Sample.running Sample.pending, true).
Proof.
  split; [|split].
  - destruct (enqueue_select_semantics 0 Sample.full Sample.cancelled
                Sample.pending []) as (_ & H & _).
    apply H. reflexivity.
  - destruct (enqueue_select_semantics 0 Sample.running Background
                Sample.pending []) as (_ & _ & _ & H & _).
    apply H; reflexivity.
  - destruct (enqueue_select_semantics 1 Sample.running Sample.cancelled
                Sample.pending []) as (_ & _ & _ & _ & H & _).
    apply H; reflexivity.
Defined.

(** ** C9: no outbound queue before Start *)

Lemma apply_options_keep options c :
  writeChan (fold_left apply_option options c) = writeChan c /\
  RunState (fold_left apply_option options c) = RunState c.
Proof.
  revert c. induction options as [|o options IH]; intros c; [easy|].
  cbn [fold_left]. destruct (IH (apply_option c o)) as [-> ->]. now destruct o.
Qed.

Lemma writeMessageWithDeadline_writeChan t wsc mt msg :
  writeChan (fst (writeMessageWithDeadline t wsc mt msg)) = writeChan wsc.
Proof.
  unfold writeMessageWithDeadline.
  destruct (wt_deadline t); [reflexivity|]. now destruct (wt_write t).
Qed.

Section WriterFacts.

Variable MarshalIndent : RPCResponse -> list byte + error.
Variable maxChanSize : Z.

Lemma writeStep_writeChan t wsc :
  writeChan (fst (writeStep MarshalIndent t wsc)) = writeChan wsc.
Proof.
  unfold writeStep. destruct (wt_case t) as [| |m| |msg]; try reflexivity.
  - pose proof (writeMessageWithDeadline_writeChan t wsc PongMessage
                  (list_byte_of_string m)) as H.
    destruct (writeMessageWithDeadline _ _ _ _) as [w [e|]]; exact H.
  - pose proof (writeMessageWithDeadline_writeChan t wsc PingMessage []) as H.
    destruct (writeMessageWithDeadline _ _ _ _) as [w [e|]]; exact H.
  - destruct (MarshalIndent msg) as [b|e]; [|reflexivity].
    pose proof (writeMessageWithDeadline_writeChan t wsc TextMessage b) as H.
    destruct (writeMessageWithDeadline _ _ _ _) as [w [e|]]; exact H.
Qed.

Lemma writeRoutine_writeChan ticks wsc :
  writeChan (fst (writeRoutine MarshalIndent ticks wsc)) = writeChan wsc.
Proof.
  revert wsc. induction ticks as [|t ticks IH]; intros wsc; [reflexivity|].
  cbn [writeRoutine]. pose proof (writeStep_writeChan t wsc) as H.
  destruct (writeStep MarshalIndent t wsc) as [w [|]]; cbn in H.
  - now rewrite IH.
  - exact H.
Qed.

(** A successful [Start] leaves the connection with a fresh channel of the
    configured capacity. *)
Lemma Start_makes_writeChan wticks wsc :
  RunState wsc = NotStarted ->
  (0 <= writeChanCapacity wsc <= maxChanSize)%Z ->
  writeChan (fst (Start MarshalIndent maxChanSize wticks wsc)) =
  Some (makechan (Z.to_nat (writeChanCapacity wsc))).
Proof.
  intros Hs Hcap. unfold Start. rewrite Hs. cbn [RunState_Start].
  cbn [writeChanCapacity set_RunState].
  destruct (Z.ltb_spec (writeChanCapacity wsc) 0) as [Hlt|_]; [lia|].
  destruct (Z.ltb_spec maxChanSize (writeChanCapacity wsc)) as [Hlt|_]; [lia|].
  cbn [orb]. destruct (NewTicker _); [|reflexivity].
  match goal with
  | |- context [writeRoutine MarshalIndent wticks ?c] =>
      pose proof (writeRoutine_writeChan wticks c) as H;
      destruct (writeRoutine MarshalIndent wticks c) as [w [|]]
  end; exact H.
Qed.

End WriterFacts.

Lemma Stop_via_writeChan g wsc : writeChan (fst (Stop_via g wsc)) = writeChan wsc.
Proof.
  unfold Stop_via. destruct (g (RunState wsc)) as [s [e|]]; [reflexivity|].
  cbn. destruct (onDisconnect wsc); cbn; destruct (ctx wsc); reflexivity.
Qed.

Lemma Context_writeChan wsc : writeChan (fst (Context_ wsc)) = writeChan wsc.
Proof. unfold Context_. now destruct (ctx wsc). Qed.

Lemma over_no_chan_parked ws wsc resp :
  writeChan wsc = None ->
  Forall (fun w => Done (w_ctx w) = false) ws ->
  WriteRPCResponse_over ws wsc resp = None.
Proof.
  intros Hc Hws. induction Hws as [|w ws Hd _ IH]; [reflexivity|].
  cbn. rewrite (drain_no_chan _ _ Hc), WriteRPCResponse_cases, Hd, Hc. exact IH.
Qed.

(** C9.  A connection made by [newWSConnection] has a nil write channel;
    [Start] is what creates the channel, with the configured capacity when
    that is one [make] can take, and neither [Stop] nor [Context] touches
    it.  On a connection whose write channel is nil
    [TryWriteRPCResponse] returns false, and [WriteRPCResponse] never
    returns nil: it stays parked as long as the supplied context is not
    cancelled, and at the first wake-up at which it is cancelled it returns
    the context's error. *)
Theorem no_queue_before_Start
    (remote : string) (fm : gmap string RPCFunc) (options : list wsOption) :
  let fresh := newWSConnection remote fm options in
  writeChan fresh = None /\
  (forall MarshalIndent maxChanSize wticks,
     (0 <= writeChanCapacity fresh <= maxChanSize)%Z ->
     writeChan (fst (Start MarshalIndent maxChanSize wticks fresh)) =
     Some (makechan (Z.to_nat (writeChanCapacity fresh)))) /\
  (forall wsc, writeChan wsc = None ->
     writeChan (fst (Stop wsc)) = None /\ writeChan (fst (Context_ wsc)) = None) /\
  (forall wsc rnd ctx resp ws, writeChan wsc = None ->
     TryWriteRPCResponse rnd wsc ctx resp = Some (wsc, false) /\
     (forall w', WriteRPCResponse_over ws wsc resp <> Some (w', None)) /\
     (Forall (fun w => Done (w_ctx w) = false) ws ->
        WriteRPCResponse_over ws wsc resp = None) /\
     (forall pre w post, ws = pre ++ w :: post ->
        Forall (fun w => Done (w_ctx w) = false) pre ->
        Done (w_ctx w) = true ->
        is_Some (Err (w_ctx w)) /\
        WriteRPCResponse_over ws wsc resp = Some (wsc, Err (w_ctx w)))).
Proof.
  intros fresh.
  assert (Hfresh : writeChan fresh = None /\ RunState fresh = NotStarted).
  { unfold fresh, newWSConnection. cbn [writeChan RunState emit].
    destruct (apply_options_keep options
      {| RunState := NotStarted; remoteAddr := remote; writeChan := None;
         readRoutineQuit := false; funcMap := fm;
         writeChanCapacity := defaultWSWriteChanCapacity;
         writeWait := defaultWSWriteWait; readWait := defaultWSReadWait;
         pingPeriod := defaultWSPingPeriod; readLimit := 0;
         onDisconnect := None; ctx := None; trace := [] |}) as [-> ->].
    easy. }
  destruct Hfresh as [Hnil Hns].
  split_and!.
  - exact Hnil.
  - intros M maxChan wticks Hcap. now apply Start_makes_writeChan.
  - intros wsc Hc. unfold Stop. now rewrite Stop_via_writeChan, Context_writeChan.
  - intros wsc rnd ctx0 resp ws Hc. split_and!.
    + rewrite TryWriteRPCResponse_cases, Hc. now destruct (Done ctx0).
    + intros w' H.
      destruct (over_Some_split _ _ _ _ H) as (pre & w & post & _ & _ & Hw).
      rewrite WriteRPCResponse_cases, (drain_all_no_chan _ _ Hc), Hc in Hw.
      cbn in Hw. destruct (Done (w_ctx w)) eqn:Hd; [|discriminate].
      destruct (Done_Err _ Hd) as [e He]. rewrite He in Hw. discriminate.
    + now apply over_no_chan_parked.
    + intros pre w post -> Hpre Hd. split.
      * destruct (Done_Err _ Hd) as [e ->]. eauto.
      * rewrite (over_app_None _ _ _ _ (over_no_chan_parked pre wsc resp Hc Hpre)).
        rewrite (drain_all_no_chan _ _ Hc). cbn.
        now rewrite (drain_no_chan _ _ Hc), WriteRPCResponse_cases, Hd, Hc.
Qed.

Lemma no_queue_before_Start_witness :
  writeChan (fst (Start Sample.marshal Sample.maxChanSize [] Sample.fresh)) = Some (makechan 1) /\
  TryWriteRPCResponse 0 Sample.fresh Background Sample.pending
    = Some (Sample.fresh, false) /\
  WriteRPCResponse_over
    [ {| w_rnd := 0; w_ctx := WithCancel None; w_writer := [Recv] |};
      {| w_rnd := 0; w_ctx := Sample.cancelled; w_writer := [] |} ]
    Sample.fresh Sample.pending
    = Some (Sample.fresh, Some Canceled).
Proof.
  destruct (no_queue_before_Start "10.0.0.7:4242" Sample.routes
              [OnDisconnect (Some Sample.cb); WriteChanCapacity 1])
    as (Hnil & Hstart & _ & Hq).
  split; [|split].
  - apply (Hstart Sample.marshal Sample.maxChanSize []).
    vm_compute. split; discriminate.
  - apply (Hq Sample.fresh 0 Background Sample.pending []). exact Hnil.
  - destruct (Hq Sample.fresh 0 Background Sample.pending
                [ {| w_rnd := 0; w_ctx := WithCancel None; w_writer := [Recv] |};
                  {| w_rnd := 0; w_ctx := Sample.cancelled; w_writer := [] |} ]
                Hnil) as (_ & _ & _ & H).
    apply (H [ {| w_rnd := 0; w_ctx := WithCancel None; w_writer := [Recv] |} ]
             {| w_rnd := 0; w_ctx := Sample.cancelled; w_writer := [] |} []).
    + reflexivity.
    + repeat constructor.
    + reflexivity.
Defined.

(** ** C3: the context of the inbound loop's enqueue *)

(** C3.  The enqueue of the inbound loop is not governed by the
    connection's token: the loop enqueues with the background context, which
    never fires, where the comment at the head of [readRoutine] promises
    that it blocks until the response is written or the connection is
    closed.  On a stopped connection whose token has fired and whose queue
    is full, a request for an unknown method leaves the loop parked in the
    enqueue, and no later wake-up ends the enqueue as long as the writer
    leaves the queue as it is. *)
Theorem readRoutine_enqueue_ignores_token :
  let t := Sample.frame (Sample.req Sample.id7 "nope" []) in
  let resp := RPCMethodNotFoundError Sample.id7 in
  RunState Sample.stopped_full = Stopped /\
  ctx Sample.stopped_full = Some Sample.cancelled /\
  readRoutine [t] Sample.stopped_full = (Sample.stopped_full, ParkedInWrite) /\
  forall n rnd,
    WriteRPCResponse_over
      (repeat {| w_rnd := rnd; w_ctx := writeCtx; w_writer := [] |} n)
      Sample.stopped_full resp = None.
Proof.
  cbv zeta. split_and!; try (vm_compute; reflexivity).
  intros n rnd. induction n as [|n IH]; [reflexivity|].
  cbn [repeat WriteRPCResponse_over w_writer w_rnd w_ctx].
  rewrite drain_nil, WriteRPCResponse_writeCtx.
  replace (can_send (writeChan Sample.stopped_full)) with false
    by (vm_compute; reflexivity).
  exact IH.
Qed.

(** ** C6: Stop *)

Lemma disconnects_app tr1 tr2 :
  disconnects (tr1 ++ tr2) = disconnects tr1 ++ disconnects tr2.
Proof.
  induction tr1 as [|e tr1 IH]; [reflexivity|].
  destruct e; cbn; now rewrite ?IH.
Qed.

Lemma sent_app tr1 tr2 : sent (tr1 ++ tr2) = sent tr1 ++ sent tr2.
Proof.
  induction tr1 as [|e tr1 IH]; [reflexivity|].
  destruct e; cbn; now rewrite ?IH.
Qed.

(** Whatever the guard, a [Stop] that it lets through calls the configured
    callback: a second call could only return nil by calling it again. *)
Lemma Stop_via_nil_calls_back g wsc cb :
  onDisconnect wsc = Some cb ->
  snd (Stop_via g wsc) = None ->
  disconnects (trace (fst (Stop_via g wsc))) =
  disconnects (trace wsc) ++ [remoteAddr wsc].
Proof.
  unfold Stop_via. intros Hcb. destruct (g (RunState wsc)) as [s [e|]]; [discriminate|].
  intros _. cbn. rewrite Hcb. cbn.
  destruct (ctx wsc); cbn; rewrite ?disconnects_app; cbn;
    rewrite ?disconnects_app; cbn; now rewrite ?app_nil_r.
Qed.

(** C6 without the amendment fails: on a running connection with a
    callback, the second [Stop] does not return nil. *)
Lemma second_Stop_fails :
  RunState Sample.running = Running /\
  ~ (snd (Stop (fst (Stop Sample.running))) = None).
Proof. split; [reflexivity|]. vm_compute. discriminate. Qed.

(** C6 (as amended).  [Stop] on a running connection returns nil, moves the
    connection to Stopped, calls the configured callback, if any, with the
    remote address, and cancels the connection's context if it has been
    created.  A second [Stop] does not succeed: it returns the guard's
    NotRunning error and changes nothing, so the callback has been called
    once. *)
Theorem Stop_once (wsc : wsConnection) :
  RunState wsc = Running ->
  let first := Stop wsc in
  let second := Stop (fst first) in
  snd first = None /\
  RunState (fst first) = Stopped /\
  trace (fst first) =
    trace wsc
    ++ match onDisconnect wsc with
       | Some cb => [EvOnDisconnect cb (remoteAddr wsc)]
       | None => []
       end
    ++ match ctx wsc with
       | Some _ => [EvCancel]
       | None => []
       end /\
  ctx (fst first) = cancel <$> ctx wsc /\
  (forall e, ctx wsc = Some (WithCancel e) ->
     exists x, ctx (fst first) = Some x /\ Done x = true) /\
  snd second = Some ErrNotRunning /\
  fst second = fst first /\
  disconnects (trace (fst second)) =
    disconnects (trace wsc)
    ++ match onDisconnect wsc with
       | Some _ => [remoteAddr wsc]
       | None => []
       end.
Proof.
  intros Hrun. unfold Stop, Stop_via. rewrite Hrun. cbn [RunState_Stop fst snd].
  destruct (onDisconnect wsc) as [cb|] eqn:Hcb, (ctx wsc) as [x|] eqn:Hctx;
    cbn; rewrite ?Hcb, ?Hctx; cbn; rewrite ?Hcb, ?Hctx; cbn;
    split_and!;
    first
      [ reflexivity
      | assumption
      | now rewrite <- ?app_assoc, ?app_nil_r
      | now rewrite ?disconnects_app; cbn; rewrite ?app_nil_r, <- ?app_assoc
      | intros e He; discriminate He
      | intros e He; injection He as ->; destruct e; cbn; eauto ].
Qed.

Lemma Stop_once_witness :
  snd (Stop Sample.running) = None /\
  snd (Stop (fst (Stop Sample.running))) = Some ErrNotRunning /\
  disconnects (trace (fst (Stop (fst (Stop Sample.running))))) = ["10.0.0.7:4242"].
Proof.
  destruct (Stop_once Sample.running eq_refl) as (H1 & _ & _ & _ & _ & H2 & _ & H3).
  split; [exact H1|]. split; [exact H2|]. exact H3.
Defined.

(** ** The inbound loop, one iteration at a time *)

Lemma setReadDeadline_keeps t wsc :
  writeChan (setReadDeadline t wsc) = writeChan wsc /\
  funcMap (setReadDeadline t wsc) = funcMap wsc /\
  remoteAddr (setReadDeadline t wsc) = remoteAddr wsc /\
  sent (trace (setReadDeadline t wsc)) = sent (trace wsc).
Proof.
  unfold setReadDeadline. destruct (rt_deadline t); cbn; rewrite ?sent_app; cbn;
    now rewrite ?app_nil_r.
Qed.

Lemma callArgs_remoteAddr wsc wsc' rpcFunc request :
  remoteAddr wsc' = remoteAddr wsc ->
  callArgs wsc' rpcFunc request = callArgs wsc rpcFunc request.
Proof. unfold callArgs. now intros ->. Qed.

Lemma can_send_has_chan {A : Type} (ch : option (hchan A)) :
  can_send ch = true -> exists c, ch = Some c.
Proof. destruct ch; [eauto|discriminate]. Qed.

Lemma sent_accept wsc resp :
  can_send (writeChan wsc) = true ->
  sent (trace (accept wsc resp)) = sent (trace wsc) ++ [resp].
Proof.
  intros H. destruct (can_send_has_chan _ H) as [c Hc].
  unfold accept. rewrite Hc. cbn. now rewrite sent_app.
Qed.

(** What the send does to the channel: the response is the newest of the
    values in flight, behind those that were there; the capacity is as it
    was. *)
Lemma accept_queue wsc resp :
  can_send (writeChan wsc) = true ->
  exists c c',
    writeChan wsc = Some c /\ writeChan (accept wsc resp) = Some c' /\
    qbuf c' = qbuf c ++ [resp] /\ dataqsiz c' = dataqsiz c.
Proof.
  intros H. destruct (can_send_has_chan _ H) as [c Hc].
  exists c, (chansend c resp). unfold accept. rewrite Hc. cbn.
  unfold chansend. destruct (recvq c); auto.
Qed.

(** The iteration that receives a decoded request. *)
Lemma readRoutine_decoded t rest wsc request :
  Done (rt_ctx t) = false ->
  rt_next t = Frame (Decoded request) ->
  readRoutine (t :: rest) wsc =
  match dispatch t (setReadDeadline t (drain (rt_writer t) wsc)) request with
  | (w, BContinue) => readRoutine rest w
  | (w, BReturn) => (w, Returned)
  | (w, BParked) => (w, ParkedInWrite)
  | (w, BPanic r) =>
      match recovered t w r with
      | (w, true) => readRoutine rest w
      | (w, false) => (w, ParkedInWrite)
      end
  end.
Proof.
  intros Hd Hn. cbn [readRoutine]. unfold loopBody.
  now rewrite selectgo_one, Hd, Hn.
Qed.

(** ** C7: unknown methods *)

(** C7.  A request with an id whose method is not in the registry makes the
    loop enqueue the MethodNotFound response, with code -32601 and the
    request's id, and go on to the next frame: the response is then in the
    outbound channel, behind the responses that were there.  The enqueue is
    the blocking one, so the loop parks in it while the outbound channel
    cannot take the response. *)
Theorem unknown_method_answered
    (t : rtick) (rest : list rtick) (wsc : wsConnection)
    (request : RPCRequest) (id : jsonrpcid) :
  Done (rt_ctx t) = false ->
  rt_next t = Frame (Decoded request) ->
  ID request = Some id ->
  funcMap wsc !! Method request = None ->
  let resp := RPCMethodNotFoundError (Some id) in
  let wsc1 := setReadDeadline t (drain (rt_writer t) wsc) in
  resp_code resp = Some (-32601)%Z /\
  rID resp = ID request /\
  (can_send (writeChan wsc1) = true ->
     readRoutine (t :: rest) wsc = readRoutine rest (accept wsc1 resp) /\
     sent (trace (accept wsc1 resp)) = sent (trace wsc) ++ [resp] /\
     exists c c',
       writeChan wsc1 = Some c /\ writeChan (accept wsc1 resp) = Some c' /\
       qbuf c' = qbuf c ++ [resp] /\ dataqsiz c' = dataqsiz c) /\
  (can_send (writeChan wsc1) = false ->
     readRoutine (t :: rest) wsc = (wsc1, ParkedInWrite)).
Proof.
  intros Hd Hn Hid Hm resp wsc1.
  destruct (setReadDeadline_keeps t (drain (rt_writer t) wsc)) as (_ & Hf & _ & Hs).
  assert (Hstep : readRoutine (t :: rest) wsc =
                  match respond t wsc1 resp with
                  | (w, BContinue) => readRoutine rest w
                  | (w, BReturn) => (w, Returned)
                  | (w, BParked) => (w, ParkedInWrite)
                  | (w, BPanic r) =>
                      match recovered t w r with
                      | (w, true) => readRoutine rest w
                      | (w, false) => (w, ParkedInWrite)
                      end
                  end).
  { rewrite (readRoutine_decoded _ _ _ _ Hd Hn). unfold dispatch.
    rewrite Hid. fold wsc1. unfold wsc1 at 1. rewrite Hf. cbn [funcMap drain set_writeChan].
    now rewrite Hm. }
  split_and!.
  - reflexivity.
  - now rewrite Hid.
  - intros Hc. rewrite Hstep, respond_cases, Hc. split_and!; [reflexivity| |].
    + rewrite (sent_accept _ _ Hc). unfold wsc1. now rewrite Hs.
    + exact (accept_queue wsc1 resp Hc).
  - intros Hc. now rewrite Hstep, respond_cases, Hc.
Qed.

Lemma unknown_method_answered_witness :
  let w := fst (readRoutine [Sample.frame (Sample.req Sample.id7 "nope" [])]
                  Sample.running) in
  w = accept Sample.running (RPCMethodNotFoundError Sample.id7) /\
  qbuf <$> writeChan w = Some [RPCMethodNotFoundError Sample.id7].
Proof.
  cbv zeta.
  destruct (unknown_method_answered
              (Sample.frame (Sample.req Sample.id7 "nope" [])) []
              Sample.running (Sample.req Sample.id7 "nope" []) (JSONRPCIntID 7)
              eq_refl eq_refl eq_refl ltac:(vm_compute; reflexivity))
    as (_ & _ & H & _).
  destruct (H ltac:(vm_compute; reflexivity)) as (-> & _ & c & c' & Hc & Hc' & Hq & _).
  cbn [readRoutine fst]. split; [vm_compute; reflexivity|].
  rewrite Hc'. cbn [fmap option_fmap option_map]. rewrite Hq.
  vm_compute in Hc. injection Hc as <-. reflexivity.
Defined.

(** ** C1: a panicking handler *)

(** C1.  When the call of a resolved handler panics, the deferred function
    logs, builds one InternalError response whose id is the integer -1
    whatever the request's id, and enqueues it with the blocking enqueue;
    once the outbound channel has taken it, the response is in the channel,
    behind the responses that were there, and a new [readRoutine] is
    started as a goroutine and serves the frames that follow.  While the
    channel cannot take the response the deferred function is parked in the
    enqueue. *)
Theorem handler_panic_recovered
    (t : rtick) (rest : list rtick) (wsc : wsConnection) (request : RPCRequest)
    (id : jsonrpcid) (rpcFunc : RPCFunc) (args : list Value) (r : PanicValue) :
  Done (rt_ctx t) = false ->
  rt_next t = Frame (Decoded request) ->
  ID request = Some id ->
  funcMap wsc !! Method request = Some rpcFunc ->
  callArgs wsc rpcFunc request = inl args ->
  f rpcFunc args = Panics r ->
  let resp := RPCInternalError (Some (JSONRPCIntID (-1))) (panicError r) in
  let wsc1 := emit (EvLog LError "Panic in WSJSONRPC handler")
                (setReadDeadline t (drain (rt_writer t) wsc)) in
  rID resp = Some (JSONRPCIntID (-1)) /\
  resp_code resp = Some (-32603)%Z /\
  (can_send (writeChan wsc1) = true ->
     readRoutine (t :: rest) wsc =
       readRoutine rest (emit EvGoReadRoutine (accept wsc1 resp)) /\
     trace (emit EvGoReadRoutine (accept wsc1 resp)) =
       trace wsc1 ++ [EvSent resp; EvGoReadRoutine] /\
     sent (trace (emit EvGoReadRoutine (accept wsc1 resp))) =
       sent (trace wsc) ++ [resp] /\
     exists c c',
       writeChan wsc1 = Some c /\
       writeChan (emit EvGoReadRoutine (accept wsc1 resp)) = Some c' /\
       qbuf c' = qbuf c ++ [resp] /\ dataqsiz c' = dataqsiz c) /\
  (can_send (writeChan wsc1) = false ->
     readRoutine (t :: rest) wsc = (wsc1, ParkedInWrite)).
Proof.
  intros Hd Hn Hid Hm Ha Hf resp wsc1.
  set (wsc0 := setReadDeadline t (drain (rt_writer t) wsc)) in *.
  destruct (setReadDeadline_keeps t (drain (rt_writer t) wsc)) as (_ & Hfm & Hra & Hs).
  fold wsc0 in Hfm, Hra, Hs.
  assert (Hstep : readRoutine (t :: rest) wsc =
                  match recovered t wsc0 r with
                  | (w, true) => readRoutine rest w
                  | (w, false) => (w, ParkedInWrite)
                  end).
  { rewrite (readRoutine_decoded _ _ _ _ Hd Hn). fold wsc0. unfold dispatch.
    rewrite Hid, Hfm. cbn [funcMap drain set_writeChan]. rewrite Hm.
    rewrite (callArgs_remoteAddr wsc wsc0) by exact Hra.
    now rewrite Ha, Hf. }
  assert (Hrec : recovered t wsc0 r =
                 if can_send (writeChan wsc1)
                 then (emit EvGoReadRoutine (accept wsc1 resp), true)
                 else (wsc1, false)).
  { unfold recovered. fold wsc1. fold resp. rewrite WriteRPCResponse_writeCtx.
    now destruct (can_send (writeChan wsc1)). }
  split_and!; try reflexivity.
  - intros Hc. rewrite Hstep, Hrec, Hc. split_and!; [reflexivity| | |].
    + destruct (can_send_has_chan _ Hc) as [c Hch].
      unfold accept. rewrite Hch. cbn. now rewrite <- app_assoc.
    + cbn [trace emit]. rewrite sent_app, (sent_accept _ _ Hc). cbn.
      rewrite sent_app, Hs. cbn. now rewrite !app_nil_r.
    + exact (accept_queue wsc1 resp Hc).
  - intros Hc. now rewrite Hstep, Hrec, Hc.
Qed.

Lemma handler_panic_recovered_witness :
  let served :=
    readRoutine
      [ Sample.frame (Sample.req Sample.id7 "boom" []);
        {| rt_ctx := WithCancel None; rt_deadline := None;
           rt_next := Frame (Decoded (Sample.req (Some (JSONRPCIntID 8)) "health" []));
           rt_writer := [Recv]; rt_rnd := 0 |} ]
      Sample.running in
  sent (trace (fst served)) =
    [ RPCInternalError (Some (JSONRPCIntID (-1))) (errorString "WSJSONRPC: boom");
      NewRPCSuccessResponse (Some (JSONRPCIntID 8)) Sample.result42 ] /\
  snd served = Reading /\
  qbuf <$> writeChan (fst (readRoutine
                             [Sample.frame (Sample.req Sample.id7 "boom" [])]
                             Sample.running)) =
    Some [RPCInternalError (Some (JSONRPCIntID (-1)))
            (errorString "WSJSONRPC: boom")].
Proof.
  cbv zeta.
  assert (Hq : qbuf <$> writeChan (fst (readRoutine
                             [Sample.frame (Sample.req Sample.id7 "boom" [])]
                             Sample.running)) =
    Some [RPCInternalError (Some (JSONRPCIntID (-1)))
            (errorString "WSJSONRPC: boom")]).
  { destruct (handler_panic_recovered
              (Sample.frame (Sample.req Sample.id7 "boom" [])) []
              Sample.running (Sample.req Sample.id7 "boom" []) (JSONRPCIntID 7)
              Sample.boom
              [ValueOf_Context {| JSONReq := Sample.req Sample.id7 "boom" [];
                                  WSConn := "10.0.0.7:4242" |}]
              (PanicAny "boom")
              eq_refl eq_refl eq_refl ltac:(vm_compute; reflexivity)
              eq_refl eq_refl)
      as (_ & _ & H & _).
    destruct (H ltac:(vm_compute; reflexivity))
      as (-> & _ & _ & c & c' & Hc & Hc' & Hqb & _).
    cbn [readRoutine fst]. rewrite Hc'. cbn [fmap option_fmap option_map].
    rewrite Hqb. vm_compute in Hc. injection Hc as <-. reflexivity. }
  destruct (handler_panic_recovered
              (Sample.frame (Sample.req Sample.id7 "boom" []))
              [ {| rt_ctx := WithCancel None; rt_deadline := None;
                   rt_next := Frame (Decoded (Sample.req (Some (JSONRPCIntID 8))
                                                "health" []));
                   rt_writer := [Recv]; rt_rnd := 0 |} ]
              Sample.running (Sample.req Sample.id7 "boom" []) (JSONRPCIntID 7)
              Sample.boom
              [ValueOf_Context {| JSONReq := Sample.req Sample.id7 "boom" [];
                                  WSConn := "10.0.0.7:4242" |}]
              (PanicAny "boom")
              eq_refl eq_refl eq_refl ltac:(vm_compute; reflexivity)
              eq_refl eq_refl)
    as (_ & _ & H & _).
  destruct (H ltac:(vm_compute; reflexivity)) as (-> & _ & _).
  split_and!; [vm_compute; reflexivity|vm_compute; reflexivity|exact Hq].
Defined.

(** ** C5: from the handler's outcome to the response *)

Lemma isInvalidRequest_sentinel e :
  isInvalidRequest e = true <->
  exists s, e = Some (coreError s) /\ badRequestSentinel s = true.
Proof.
  split.
  - destruct e as [[| [] | |]|]; cbn; try discriminate; eauto.
  - intros (s & -> & Hs). destruct s; cbn in *; congruence.
Qed.

(** The step of the loop after a handler has returned. *)
Lemma dispatch_returned t wsc request id rpcFunc args result err :
  ID request = Some id ->
  funcMap wsc !! Method request = Some rpcFunc ->
  callArgs wsc rpcFunc request = inl args ->
  f rpcFunc args = Returns result err ->
  dispatch t wsc request =
  match responseOf request result err with
  | inr r => (emit (EvLog LInfo "WSJSONRPC") wsc, BPanic r)
  | inl resp => respond t (emit (EvLog LInfo "WSJSONRPC") wsc) resp
  end.
Proof. intros Hid Hm Ha Hf. unfold dispatch. now rewrite Hid, Hm, Ha, Hf. Qed.

(** C5.  The outcome of a handler that returned maps to a response as
    follows.  Without error: the success response with the result and the
    request's id.  With an error that is an RPC error value: the failure
    response with that very error and the request's id.  With an error that
    unwraps to one of the four bad-request sentinels: the InvalidRequest
    response, code -32600.  With any other error: the InternalError
    response, code -32603.  That response is the one the loop enqueues.  (A
    nil [*RPCError] is no value to forward: reading its fields panics, and
    the deferred function answers with an InternalError, code -32603.) *)
Theorem outcome_taxonomy
    (t : rtick) (wsc : wsConnection) (request : RPCRequest) (result : Value) :
  responseOf request result None =
    inl {| rID := ID request; Result := Some result; RPCErr := None |} /\
  (forall e : RPCError,
     responseOf request result (Some (rpcErrorPtr (Some e))) =
       inl {| rID := ID request; Result := None; RPCErr := Some e |}) /\
  (forall err s,
     Unwrap err = Some (coreError s) -> badRequestSentinel s = true ->
     responseOf request result (Some err) =
       inl (RPCInvalidRequestError (ID request) err) /\
     resp_code (RPCInvalidRequestError (ID request) err) = Some (-32600)%Z /\
     rID (RPCInvalidRequestError (ID request) err) = ID request) /\
  (forall err,
     (forall p, err <> rpcErrorPtr p) ->
     (forall s, Unwrap err = Some (coreError s) -> badRequestSentinel s = false) ->
     responseOf request result (Some err) =
       inl (RPCInternalError (ID request) err) /\
     resp_code (RPCInternalError (ID request) err) = Some (-32603)%Z /\
     rID (RPCInternalError (ID request) err) = ID request) /\
  (exists r,
     responseOf request result (Some (rpcErrorPtr None)) = inr r /\
     resp_code (RPCInternalError (Some (JSONRPCIntID (-1))) (panicError r))
       = Some (-32603)%Z) /\
  (forall id rpcFunc args err resp,
     ID request = Some id ->
     funcMap wsc !! Method request = Some rpcFunc ->
     callArgs wsc rpcFunc request = inl args ->
     f rpcFunc args = Returns result err ->
     responseOf request result err = inl resp ->
     dispatch t wsc request = respond t (emit (EvLog LInfo "WSJSONRPC") wsc) resp).
Proof.
  split_and!.
  - reflexivity.
  - intros [code msg data]. reflexivity.
  - intros err s Hu Hs.
    assert (Hi : isInvalidRequest (Unwrap err) = true)
      by (apply isInvalidRequest_sentinel; eauto).
    split_and!; try reflexivity.
    destruct err as [| |p|msg inner]; try discriminate Hu.
    unfold responseOf. now rewrite Hi.
  - intros err Hp Hs.
    assert (Hi : isInvalidRequest (Unwrap err) = false).
    { destruct (isInvalidRequest (Unwrap err)) eqn:E; [|reflexivity].
      apply isInvalidRequest_sentinel in E. destruct E as (s & Hu & Hb).
      rewrite (Hs s Hu) in Hb. discriminate. }
    split_and!; try reflexivity.
    destruct err as [| |p|msg inner]; unfold responseOf; rewrite ?Hi; try reflexivity.
    now destruct (Hp p).
  - exists nilDereference. split; reflexivity.
  - intros id rpcFunc args err resp Hid Hm Ha Hf Hr.
    now rewrite (dispatch_returned _ _ _ _ _ _ _ _ Hid Hm Ha Hf), Hr.
Qed.

Lemma outcome_taxonomy_witness :
  responseOf (Sample.req Sample.id7 "block" []) Sample.result42
    (Some (Errorf_w "block" (coreError ErrZeroOrNegativeHeight)))
  = inl (RPCInvalidRequestError Sample.id7
           (Errorf_w "block" (coreError ErrZeroOrNegativeHeight))) /\
  responseOf (Sample.req Sample.id7 "block" []) Sample.result42
    (Some (coreError ErrZeroOrNegativeHeight))
  = inl (RPCInternalError Sample.id7 (coreError ErrZeroOrNegativeHeight)) /\
  dispatch (Sample.frame (Sample.req Sample.id7 "health" [])) Sample.running
    (Sample.req Sample.id7 "health" [])
  = respond (Sample.frame (Sample.req Sample.id7 "health" []))
      (emit (EvLog LInfo "WSJSONRPC") Sample.running) Sample.pending.
Proof.
  destruct (outcome_taxonomy (Sample.frame (Sample.req Sample.id7 "health" []))
              Sample.running (Sample.req Sample.id7 "block" []) Sample.result42)
    as (_ & _ & Hbad & Hother & _).
  destruct (outcome_taxonomy (Sample.frame (Sample.req Sample.id7 "health" []))
              Sample.running (Sample.req Sample.id7 "health" []) Sample.result42)
    as (_ & _ & _ & _ & _ & Hloop).
  split_and!.
  - apply (Hbad _ ErrZeroOrNegativeHeight); reflexivity.
  - apply Hother; [intros p; discriminate | intros s; discriminate].
  - apply (Hloop (JSONRPCIntID 7) Sample.health
             [ValueOf_Context {| JSONReq := Sample.req Sample.id7 "health" [];
                                 WSConn := "10.0.0.7:4242" |}] None);
      reflexivity.
Defined.

(** ** C10: binding only when there are parameters *)

Lemma callArgs_cases wsc rpcFunc request :
  callArgs wsc rpcFunc request =
  let args := [ValueOf_Context {| JSONReq := request; WSConn := remoteAddr wsc |}] in
  match Params request with
  | [] => inl args
  | _ :: _ =>
      match jsonParamsToArgs rpcFunc (Params request) with
      | inr err => inr err
      | inl fnArgs => inl (args ++ fnArgs)
      end
  end.
Proof. unfold callArgs. now destruct (Params request). Qed.

(** C10.  For a request with an id and a registered method: when its
    parameters are empty, nothing is bound, the handler is called with the
    request context alone, and the loop continues from the handler's outcome;
    the branch that answers InvalidParams is taken exactly when binding was
    attempted and failed, which requires parameters that are not empty.  With
    empty parameters a response with the InvalidParams code can reach the
    queue only as the handler's own RPC error, forwarded as it is. *)
Theorem binding_only_with_params
    (t : rtick) (wsc : wsConnection) (request : RPCRequest) (id : jsonrpcid)
    (rpcFunc : RPCFunc) :
  ID request = Some id ->
  funcMap wsc !! Method request = Some rpcFunc ->
  let ctx := ValueOf_Context {| JSONReq := request; WSConn := remoteAddr wsc |} in
  (Params request = [] ->
     callArgs wsc rpcFunc request = inl [ctx] /\
     dispatch t wsc request =
       match f rpcFunc [ctx] with
       | Panics r => (wsc, BPanic r)
       | Returns result err =>
           match responseOf request result err with
           | inr r => (emit (EvLog LInfo "WSJSONRPC") wsc, BPanic r)
           | inl resp => respond t (emit (EvLog LInfo "WSJSONRPC") wsc) resp
           end
       end /\
     (forall result err resp,
        f rpcFunc [ctx] = Returns result err ->
        (forall p, err <> Some (rpcErrorPtr p)) ->
        responseOf request result err = inl resp ->
        resp_code resp <> Some (-32602)%Z)) /\
  (forall err,
     callArgs wsc rpcFunc request = inr err ->
     Params request <> [] /\
     jsonParamsToArgs rpcFunc (Params request) = inr err /\
     dispatch t wsc request =
       respond t wsc
         (RPCInvalidParamsError (ID request)
            (Errorf_w "error converting json params to arguments" err))) /\
  (forall args,
     callArgs wsc rpcFunc request = inl args ->
     dispatch t wsc request =
       match f rpcFunc args with
       | Panics r => (wsc, BPanic r)
       | Returns result err =>
           match responseOf request result err with
           | inr r => (emit (EvLog LInfo "WSJSONRPC") wsc, BPanic r)
           | inl resp => respond t (emit (EvLog LInfo "WSJSONRPC") wsc) resp
           end
       end).
Proof.
  intros Hid Hm ctx0.
  assert (Hcall : forall args, callArgs wsc rpcFunc request = inl args ->
            dispatch t wsc request =
            match f rpcFunc args with
            | Panics r => (wsc, BPanic r)
            | Returns result err =>
                match responseOf request result err with
                | inr r => (emit (EvLog LInfo "WSJSONRPC") wsc, BPanic r)
                | inl resp => respond t (emit (EvLog LInfo "WSJSONRPC") wsc) resp
                end
            end).
  { intros args Ha. unfold dispatch. now rewrite Hid, Hm, Ha. }
  split_and!.
  - intros Hp.
    assert (Ha : callArgs wsc rpcFunc request = inl [ctx0])
      by (now rewrite callArgs_cases, Hp).
    split_and!; [exact Ha | exact (Hcall _ Ha) |].
    intros result err resp _ Hnp Hr. unfold responseOf in Hr.
    destruct err as [[s|c|p|msg inner]|]; unfold responseOf in Hr;
      try (now destruct (Hnp p));
      try (destruct (isInvalidRequest _) in Hr);
      injection Hr as <-; discriminate.
  - intros err He. rewrite callArgs_cases in He. cbv zeta in He.
    destruct (Params request) as [|b bs] eqn:Hp; [discriminate|].
    split_and!; [discriminate| |].
    + destruct (jsonParamsToArgs rpcFunc (b :: bs)); congruence.
    + unfold dispatch. rewrite Hid, Hm, callArgs_cases, Hp. cbv zeta.
      destruct (jsonParamsToArgs rpcFunc (b :: bs)); [discriminate|].
      now injection He as ->.
  - exact Hcall.
Qed.

Lemma binding_only_with_params_witness :
  callArgs Sample.running Sample.block (Sample.req Sample.id7 "block" [])
  = inl [ValueOf_Context {| JSONReq := Sample.req Sample.id7 "block" [];
                            WSConn := "10.0.0.7:4242" |}] /\
  Params (Sample.req Sample.id7 "block" [x30]%byte) <> [].
Proof.
  destruct (binding_only_with_params
              (Sample.frame (Sample.req Sample.id7 "block" []))
              Sample.running (Sample.req Sample.id7 "block" []) (JSONRPCIntID 7)
              Sample.block eq_refl ltac:(vm_compute; reflexivity))
    as (Hempty & _ & _).
  destruct (binding_only_with_params
              (Sample.frame (Sample.req Sample.id7 "block" [x30]%byte))
              Sample.running (Sample.req Sample.id7 "block" [x30]%byte)
              (JSONRPCIntID 7)
              Sample.block eq_refl ltac:(vm_compute; reflexivity))
    as (_ & Hfail & _).
  split.
  - apply Hempty. reflexivity.
  - apply (Hfail (errorString "height must be greater than 0")). reflexivity.
Defined.

(** ** C2: notifications *)

Lemma nsent_emit e wsc : nsent (emit e wsc) = nsent wsc + length (sent [e]).
Proof. unfold nsent. cbn [trace emit]. now rewrite sent_app, length_app. Qed.

Lemma nsent_accept_le wsc resp : nsent (accept wsc resp) <= nsent wsc + 1.
Proof.
  unfold accept. destruct (writeChan wsc); [|lia].
  rewrite nsent_emit. cbn. unfold nsent. cbn. lia.
Qed.

Lemma nsent_Stop wsc : nsent (fst (Stop wsc)) = nsent wsc.
Proof.
  unfold Stop, Stop_via. destruct (RunState_Stop (RunState wsc)) as [s [e|]];
    [reflexivity|].
  cbn. destruct (onDisconnect wsc); cbn; destruct (ctx wsc); cbn;
    rewrite ?nsent_emit; cbn; unfold nsent; cbn; rewrite ?sent_app; cbn;
    rewrite ?app_nil_r; lia.
Qed.

Lemma nsent_setReadDeadline t wsc : nsent (setReadDeadline t wsc) = nsent wsc.
Proof.
  unfold nsent. now destruct (setReadDeadline_keeps t wsc) as (_ & _ & _ & ->).
Qed.

Lemma respond_nsent t wsc resp :
  nsent (fst (respond t wsc resp)) <= nsent wsc + 1 /\
  forall r, snd (respond t wsc resp) <> BPanic r.
Proof.
  rewrite respond_cases. destruct (can_send (writeChan wsc)); cbn.
  - split; [apply nsent_accept_le|discriminate].
  - split; [lia|discriminate].
Qed.

(** A pass that panics has enqueued nothing; any other pass has enqueued at
    most one response, and none for a notification. *)
Lemma dispatch_nsent t wsc request :
  match snd (dispatch t wsc request) with
  | BPanic _ => nsent (fst (dispatch t wsc request)) = nsent wsc /\ ID request <> None
  | _ => nsent (fst (dispatch t wsc request))
         <= nsent wsc + match ID request with Some _ => 1 | None => 0 end
  end.
Proof.
  unfold dispatch. destruct (ID request) as [id|].
  2:{ cbn. rewrite nsent_emit. cbn. lia. }
  assert (Hresp : forall w resp, nsent w = nsent wsc ->
            match snd (respond t w resp) with
            | BPanic _ => nsent (fst (respond t w resp)) = nsent wsc
                          /\ Some id <> None
            | _ => nsent (fst (respond t w resp)) <= nsent wsc + 1
            end).
  { intros w resp Hw. destruct (respond_nsent t w resp) as [Hle Hnp].
    destruct (snd (respond t w resp)) eqn:E; try lia. now destruct (Hnp r). }
  destruct (funcMap wsc !! Method request) as [rpcFunc|]; [|now apply Hresp].
  destruct (callArgs wsc rpcFunc request) as [args|err]; [|now apply Hresp].
  destruct (f rpcFunc args) as [result err|r]; [|cbn; split; [reflexivity|discriminate]].
  destruct (responseOf request result err) as [resp|r].
  - apply Hresp. rewrite nsent_emit. cbn. lia.
  - cbn. rewrite nsent_emit. cbn. split; [lia|discriminate].
Qed.

Lemma loopBody_nsent t wsc :
  match snd (loopBody t wsc) with
  | BPanic _ => nsent (fst (loopBody t wsc)) = nsent wsc /\ isNotification t = false
  | _ => nsent (fst (loopBody t wsc))
         <= nsent wsc + (if isNotification t then 0 else 1)
  end.
Proof.
  unfold loopBody, isNotification. rewrite selectgo_one.
  destruct (Done (rt_ctx t)); [cbn; lia|]. cbn match.
  destruct (rt_next t) as [closeNormal e|[e|request]].
  - assert (Hpre : forall w, nsent w = nsent wsc ->
              nsent (fst (Stop w)) = nsent wsc) by (intros w <-; apply nsent_Stop).
    set (w0 := if closeNormal
               then emit (EvLog LInfo "Client closed the connection")
                      (setReadDeadline t wsc)
               else emit (EvLog LError "Failed to read request")
                      (setReadDeadline t wsc)).
    assert (H0 : nsent w0 = nsent wsc).
    { unfold w0. destruct closeNormal; rewrite nsent_emit, nsent_setReadDeadline;
        cbn; lia. }
    specialize (Hpre w0 H0). destruct (Stop w0) as [w1 [e1|]]; cbn in Hpre |- *.
    + destruct (readRoutineQuit w1); cbn; rewrite ?nsent_emit; cbn;
        unfold nsent in *; cbn; rewrite ?sent_app; cbn; rewrite ?length_app; cbn;
        try split; try lia; reflexivity.
    + destruct (readRoutineQuit w1); cbn; unfold nsent in *; cbn;
        try split; try lia; reflexivity.
  - destruct (respond_nsent t (setReadDeadline t wsc)
                (RPCParseError (Errorf_w "error unmarshaling request" e)))
      as [Hle Hnp].
    rewrite nsent_setReadDeadline in Hle.
    destruct (snd (respond _ _ _)) eqn:E; try lia. now destruct (Hnp r).
  - pose proof (dispatch_nsent t (setReadDeadline t wsc) request) as H.
    rewrite nsent_setReadDeadline in H.
    destruct (snd (dispatch t (setReadDeadline t wsc) request));
      destruct (ID request); try lia; try (split; [tauto|reflexivity]).
    now destruct H as [_ H].
Qed.

Lemma recovered_nsent t wsc r : nsent (fst (recovered t wsc r)) <= nsent wsc + 1.
Proof.
  unfold recovered. rewrite WriteRPCResponse_writeCtx.
  match goal with |- context [can_send ?x] => destruct (can_send x) end; cbn [fst].
  - rewrite nsent_emit. cbn.
    match goal with |- context [accept ?w ?resp] =>
      pose proof (nsent_accept_le w resp) as H end.
    rewrite nsent_emit in H. cbn in H. lia.
  - rewrite nsent_emit. cbn. lia.
Qed.

Lemma nsent_drain acts wsc : nsent (drain acts wsc) = nsent wsc.
Proof. reflexivity. Qed.

(** Over a whole run, the loop enqueues at most one response for each frame
    that is not a notification. *)
Lemma readRoutine_nsent ticks wsc :
  nsent (fst (readRoutine ticks wsc))
  <= nsent wsc + length (List.filter (fun t => negb (isNotification t)) ticks).
Proof.
  revert wsc. induction ticks as [|t ticks IH]; intros wsc; [cbn; lia|].
  cbn [readRoutine List.filter].
  pose proof (loopBody_nsent t (drain (rt_writer t) wsc)) as H.
  rewrite nsent_drain in H.
  destruct (loopBody t (drain (rt_writer t) wsc)) as [w [| | |r]]; cbn [fst snd] in H.
  - specialize (IH w). destruct (isNotification t); cbn [negb length] in *; lia.
  - destruct (isNotification t); cbn [negb length fst] in *; lia.
  - destruct (isNotification t); cbn [negb length fst] in *; lia.
  - destruct H as [H ->]. cbn [negb length].
    pose proof (recovered_nsent t w r) as Hr.
    destruct (recovered t w r) as [w' [|]]; cbn [fst] in *.
    + specialize (IH w'). lia.
    + lia.
Qed.

Lemma textFrames_app tr1 tr2 :
  textFrames (tr1 ++ tr2) = textFrames tr1 ++ textFrames tr2.
Proof.
  induction tr1 as [|e tr1 IH]; [reflexivity|].
  destruct e as [| | | | | |[] ?|]; cbn; now rewrite ?IH.
Qed.

Section WriterProperties.

Variable MarshalIndent : RPCResponse -> list byte + error.

Lemma writeMessageWithDeadline_cases t wsc mt msg :
  writeMessageWithDeadline t wsc mt msg =
  match wt_deadline t, wt_write t with
  | Some err, _ => (wsc, Some err)
  | None, Some err => (wsc, Some err)
  | None, None => (emit (EvWriteMessage mt msg) wsc, None)
  end.
Proof. unfold writeMessageWithDeadline. now destruct (wt_deadline t). Qed.

(** A text frame written in one pass is the encoding of the response that
    the pass received from the outbound channel. *)
Lemma writeStep_textFrames t wsc payload :
  In payload (textFrames (trace (fst (writeStep MarshalIndent t wsc)))) ->
  In payload (textFrames (trace wsc)) \/
  exists msg, wt_case t = Msg msg /\ MarshalIndent msg = inl payload.
Proof.
  unfold writeStep. destruct (wt_case t) as [| |m| |msg];
    try rewrite !writeMessageWithDeadline_cases;
    try (cbn; tauto).
  - destruct (wt_deadline t), (wt_write t); cbn; rewrite ?textFrames_app; cbn;
      rewrite ?app_nil_r; tauto.
  - destruct (wt_deadline t), (wt_write t); cbn; rewrite ?textFrames_app; cbn;
      rewrite ?app_nil_r; tauto.
  - destruct (MarshalIndent msg) as [b|e] eqn:E.
    + rewrite writeMessageWithDeadline_cases.
      destruct (wt_deadline t), (wt_write t); cbn; rewrite ?textFrames_app; cbn;
        rewrite ?app_nil_r; try tauto.
      rewrite in_app_iff. cbn. intros [H|[<-|[]]]; eauto.
    + cbn. rewrite textFrames_app. cbn. rewrite app_nil_r. tauto.
Qed.

Lemma writeRoutine_textFrames wticks wsc payload :
  In payload (textFrames (trace (fst (writeRoutine MarshalIndent wticks wsc)))) ->
  In payload (textFrames (trace wsc)) \/
  exists t msg, In t wticks /\ wt_case t = Msg msg /\ MarshalIndent msg = inl payload.
Proof.
  revert wsc. induction wticks as [|t wticks IH]; intros wsc; [cbn; tauto|].
  cbn [writeRoutine].
  pose proof (writeStep_textFrames t wsc payload) as Hstep.
  destruct (writeStep MarshalIndent t wsc) as [w [|]]; cbn [fst] in Hstep.
  - intros H. destruct (IH _ H) as [H1|(t' & msg & Hin & Hc & Hm)].
    + destruct (Hstep H1) as [?|(msg & Hc & Hm)]; [tauto|].
      right. exists t, msg. cbn. tauto.
    + right. exists t', msg. cbn. tauto.
  - cbn [fst trace emit]. rewrite textFrames_app. cbn. rewrite app_nil_r.
    intros H. destruct (Hstep H) as [?|(msg & Hc & Hm)]; [tauto|].
    right. exists t, msg. cbn. tauto.
Qed.

(** C2.  For a decoded request without id the loop only logs and goes on to
    the next frame: the outbound channel is as the writer left it and the
    responses accepted so far are the same.  Over any run the loop
    enqueues at most one response per frame that is not a notification,
    and every text frame that the write loop puts on the socket is the
    encoding of a response it received from the outbound channel: nothing
    is enqueued or written on account of a notification. *)
Theorem notification_never_answered
    (t : rtick) (rest : list rtick) (wsc : wsConnection) (request : RPCRequest) :
  Done (rt_ctx t) = false ->
  rt_next t = Frame (Decoded request) ->
  ID request = None ->
  let wsc1 := emit (EvLog LDebug "WSJSONRPC received a notification, skipping...")
                (setReadDeadline t (drain (rt_writer t) wsc)) in
  readRoutine (t :: rest) wsc = readRoutine rest wsc1 /\
  writeChan wsc1 = writeChan (drain (rt_writer t) wsc) /\
  sent (trace wsc1) = sent (trace wsc) /\
  (forall ticks c,
     nsent (fst (readRoutine ticks c))
     <= nsent c + length (List.filter (fun t => negb (isNotification t)) ticks)) /\
  (forall wticks c payload,
     In payload (textFrames (trace (fst (writeRoutine MarshalIndent wticks c)))) ->
     In payload (textFrames (trace c)) \/
     exists wt msg,
       In wt wticks /\ wt_case wt = Msg msg /\ MarshalIndent msg = inl payload).
Proof.
  intros Hd Hn Hid wsc1.
  destruct (setReadDeadline_keeps t (drain (rt_writer t) wsc)) as (Hc & _ & _ & Hs).
  split_and!.
  - rewrite (readRoutine_decoded _ _ _ _ Hd Hn). unfold dispatch. now rewrite Hid.
  - exact Hc.
  - unfold wsc1. cbn [trace emit]. rewrite sent_app, Hs. cbn. now rewrite app_nil_r.
  - apply readRoutine_nsent.
  - apply writeRoutine_textFrames.
Qed.

End WriterProperties.

Lemma notification_never_answered_witness :
  sent (trace (fst (readRoutine
                      [Sample.frame (Sample.req None "health" [])]
                      Sample.running))) = [] /\
  writeChan (fst (readRoutine
                    [Sample.frame (Sample.req None "health" [])]
                    Sample.running)) = Some (makechan 1).
Proof.
  destruct (notification_never_answered Sample.marshal
              (Sample.frame (Sample.req None "health" [])) [] Sample.running
              (Sample.req None "health" []) eq_refl eq_refl eq_refl)
    as (-> & Hc & Hs & _).
  cbn [readRoutine fst]. split.
  - rewrite Hs. reflexivity.
  - rewrite Hc. reflexivity.
Defined.

(** ** C4: failed pongs and failed pings *)

Section WriteFailures.

Variable MarshalIndent : RPCResponse -> list byte + error.


End WriteFailures.


(* ===================================================================== *)
(** * Part III: further properties of the code *)
(* ===================================================================== *)

(** ** Construction and options *)

Lemma configured_self o c : configured o (apply_option c o).
Proof. now destruct o. Qed.

Lemma configured_other o o' c :
  same_kind o o' = false -> configured o c -> configured o (apply_option c o').
Proof. destruct o, o'; cbn; congruence. Qed.

Lemma configured_fold o c options :
  Forall (fun o' => same_kind o o' = false) options ->
  configured o c -> configured o (fold_left apply_option options c).
Proof.
  intros H. revert c. induction H as [|o' options Ho _ IH]; intros c Hc; [exact Hc|].
  cbn [fold_left]. apply IH. now apply configured_other.
Qed.

Lemma configured_emit o e c : configured o (emit e c) <-> configured o c.
Proof. now destruct o. Qed.

(** X1.  The options are applied in order and each sets one field: the
    field of a kind of option has the value of the last option of that kind,
    and the constructor's default when there is none. *)
Theorem options_last_wins
    (remote : string) (fm : gmap string RPCFunc) (options : list wsOption)
    (o : wsOption) :
  (forall before after,
     options = before ++ o :: after ->
     Forall (fun o' => same_kind o o' = false) after ->
     configured o (newWSConnection remote fm options)) /\
  (In o defaultOptions ->
   Forall (fun o' => same_kind o o' = false) options ->
   configured o (newWSConnection remote fm options)).
Proof.
  split.
  - intros before after -> Hafter. unfold newWSConnection.
    apply configured_emit. rewrite fold_left_app. cbn [fold_left].
    apply configured_fold; [exact Hafter|]. apply configured_self.
  - intros Hin Hnone. unfold newWSConnection. apply configured_emit.
    apply configured_fold; [exact Hnone|].
    cbn in Hin. destruct Hin as [<-|[<-|[<-|[<-|[<-|[<-|[]]]]]]]; reflexivity.
Qed.

Lemma options_last_wins_witness :
  let options := [WriteChanCapacity 1; ReadLimit 5; WriteChanCapacity 7] in
  writeChanCapacity (newWSConnection "peer" Sample.routes options) = 7%Z /\
  pingPeriod (newWSConnection "peer" Sample.routes options) = (27 * Second)%Z.
Proof.
  cbv zeta. split.
  - apply (proj1 (options_last_wins "peer" Sample.routes
                    [WriteChanCapacity 1; ReadLimit 5; WriteChanCapacity 7]
                    (WriteChanCapacity 7))
             [WriteChanCapacity 1; ReadLimit 5] []); [reflexivity|constructor].
  - apply (proj2 (options_last_wins "peer" Sample.routes
                    [WriteChanCapacity 1; ReadLimit 5; WriteChanCapacity 7]
                    (PingPeriod defaultWSPingPeriod))).
    + cbn. tauto.
    + repeat constructor.
Defined.

Lemma apply_options_frame options c :
  let c' := fold_left apply_option options c in
  RunState c' = RunState c /\ remoteAddr c' = remoteAddr c /\
  writeChan c' = writeChan c /\ readRoutineQuit c' = readRoutineQuit c /\
  funcMap c' = funcMap c /\ ctx c' = ctx c /\ trace c' = trace c.
Proof.
  revert c. induction options as [|o options IH]; intros c; [cbn; tauto|].
  cbn [fold_left]. cbv zeta in *.
  destruct (IH (apply_option c o)) as (-> & -> & -> & -> & -> & -> & ->).
  now destruct o.
Qed.


(** X2.  Whatever the options, constructing a connection starts nothing: the
    connection is not started, has no write channel, no context, an open
    quit channel, the given address and registry; its one effect is to hand
    the read limit to the socket, and the limit is the one the options leave
    in the connection. *)
Theorem newWSConnection_starts_nothing
    (remote : string) (fm : gmap string RPCFunc) (options : list wsOption) :
  let c := newWSConnection remote fm options in
  RunState c = NotStarted /\ writeChan c = None /\ ctx c = None /\
  readRoutineQuit c = false /\ remoteAddr c = remote /\ funcMap c = fm /\
  trace c = [EvSetReadLimit (readLimit c)] /\
  (forall n rest, options = rest ++ [ReadLimit n] -> trace c = [EvSetReadLimit n]).
Proof.
  cbv zeta. unfold newWSConnection.
  match goal with |- context [fold_left apply_option options ?c0] =>
    destruct (apply_options_frame options c0) as (H1 & H2 & H3 & H4 & H5 & H6 & H7);
    set (c1 := fold_left apply_option options c0) in *
  end.
  cbv zeta in *. cbn in H1, H2, H3, H4, H5, H6, H7. cbn.
  rewrite H1, H2, H3, H4, H5, H6, H7. split_and!; try reflexivity.
  intros n rest ->. unfold c1. rewrite fold_left_app. reflexivity.
Qed.

Lemma newWSConnection_starts_nothing_witness :
  trace (newWSConnection "10.0.0.7:4242" Sample.routes
           [ReadLimit 512; OnDisconnect (Some Sample.cb); ReadLimit 1024])
  = [EvSetReadLimit 1024].
Proof.
  destruct (newWSConnection_starts_nothing "10.0.0.7:4242" Sample.routes
              [ReadLimit 512; OnDisconnect (Some Sample.cb); ReadLimit 1024])
    as (_ & _ & _ & _ & _ & _ & _ & H).
  apply (H 1024%Z [ReadLimit 512; OnDisconnect (Some Sample.cb)]). reflexivity.
Defined.

(** ** The ping handler *)

Lemma pingHandler_cases rnd pongs m :
  pingHandler rnd pongs m =
  if can_send (Some pongs) then chansend pongs m else pongs.
Proof.
  unfold pingHandler. rewrite selectgo_one. now destruct (can_send (Some pongs)).
Qed.

(** X3.  The ping handler never waits and never lets the relay channel grow
    beyond its capacity: a ping that the channel cannot take is dropped.  Of
    a burst of pings that arrives while the write loop is busy, only the
    first is kept for a pong. *)
Theorem pingHandler_keeps_first (pings : list (nat * string)) :
  let relay := fold_left (fun c p => pingHandler (fst p) c (snd p)) pings
                 (makechan 1) in
  qbuf relay = take 1 (map snd pings) /\
  chan_ok relay /\
  (forall rnd m c, chan_ok c -> chan_ok (pingHandler rnd c m)) /\
  (forall rnd m c, can_send (Some c) = false -> pingHandler rnd c m = c).
Proof.
  cbv zeta.
  assert (Hok : forall rnd m (c : hchan string),
            chan_ok c -> chan_ok (pingHandler rnd c m)).
  { intros rnd m c Hc. rewrite pingHandler_cases.
    destruct (can_send (Some c)) eqn:E; [now apply chan_ok_chansend|exact Hc]. }
  assert (Hfull : forall (l : list (nat * string)) (c : hchan string),
            can_send (Some c) = false ->
            fold_left (fun c p => pingHandler (fst p) c (snd p)) l c = c).
  { induction l as [|p l IH]; intros c Hc; [reflexivity|].
    cbn [fold_left]. rewrite pingHandler_cases, Hc. now apply IH. }
  split_and!.
  - destruct pings as [|[rnd m] rest]; [reflexivity|].
    cbn [fold_left map fst snd]. rewrite pingHandler_cases. cbn.
    rewrite Hfull by reflexivity. reflexivity.
  - assert (H : forall (l : list (nat * string)) (c : hchan string), chan_ok c ->
              chan_ok (fold_left (fun c p => pingHandler (fst p) c (snd p)) l c)).
    { induction l as [|p l IH]; intros c Hc; [exact Hc|].
      cbn [fold_left]. apply IH, Hok, Hc. }
    apply H, chan_ok_makechan.
  - exact Hok.
  - intros rnd m c Hc. now rewrite pingHandler_cases, Hc.
Qed.

Lemma pingHandler_keeps_first_witness :
  qbuf (fold_left (fun c p => pingHandler (fst p) c (snd p))
          [(0, "a"); (1, "b"); (2, "c")] (makechan 1)) = ["a"] /\
  chan_ok (pingHandler 0 (makechan 1) "a").
Proof.
  destruct (pingHandler_keeps_first [(0, "a"); (1, "b"); (2, "c")])
    as (H1 & _ & H3 & _).
  split; [exact H1|]. apply H3, chan_ok_makechan.
Defined.

(** ** What [Stop] and [Context] leave *)

Lemma Stop_refused w :
  RunState w <> Running ->
  snd (Stop w) = Some ErrNotRunning /\
  RunState (fst (Stop w)) = RunState w /\ trace (fst (Stop w)) = trace w /\
  ctx (fst (Stop w)) = ctx w /\ writeChan (fst (Stop w)) = writeChan w /\
  readRoutineQuit (fst (Stop w)) = readRoutineQuit w /\
  config (fst (Stop w)) = config w.
Proof.
  intros H. unfold Stop, Stop_via. destruct (RunState w) eqn:E; try congruence;
    cbn; now rewrite ?E.
Qed.

Lemma Stop_passed w :
  RunState w = Running ->
  snd (Stop w) = None /\
  RunState (fst (Stop w)) = Stopped /\
  trace (fst (Stop w)) =
    trace w
    ++ match onDisconnect w with
       | Some cb => [EvOnDisconnect cb (remoteAddr w)]
       | None => []
       end
    ++ match ctx w with Some _ => [EvCancel] | None => [] end /\
  ctx (fst (Stop w)) = cancel <$> ctx w /\
  writeChan (fst (Stop w)) = writeChan w /\
  readRoutineQuit (fst (Stop w)) = readRoutineQuit w /\
  config (fst (Stop w)) = config w.
Proof.
  intros H. unfold Stop, Stop_via. rewrite H. cbn [RunState_Stop].
  destruct (onDisconnect w) as [cb|] eqn:Hcb, (ctx w) as [x|] eqn:Hx;
    cbn; rewrite ?Hcb, ?Hx; cbn; rewrite ?Hcb, ?Hx; cbn;
    unfold config; cbn; rewrite ?Hcb;
    split_and!; first [reflexivity | now rewrite <- ?app_assoc, ?app_nil_r].
Qed.

Lemma Context_fields w :
  RunState (fst (Context_ w)) = RunState w /\
  trace (fst (Context_ w)) = trace w /\
  writeChan (fst (Context_ w)) = writeChan w /\
  readRoutineQuit (fst (Context_ w)) = readRoutineQuit w /\
  config (fst (Context_ w)) = config w /\
  ctx (fst (Context_ w)) = Some (snd (Context_ w)) /\
  (forall x, ctx w = Some x -> Context_ w = (w, x)) /\
  (ctx w = None -> snd (Context_ w) = WithCancel None).
Proof.
  unfold Context_. destruct (ctx w) as [x|] eqn:E; cbn; rewrite ?E;
    split_and!; try reflexivity; congruence.
Qed.

(** ** Moves and what they keep *)

Lemma Running_or_not w : RunState w = Running \/ RunState w <> Running.
Proof. destruct (RunState w); auto; right; discriminate. Qed.

Lemma config_eq a b :
  config a = config b ->
  remoteAddr a = remoteAddr b /\ onDisconnect a = onDisconnect b.
Proof. unfold config. intros H. injection H as ? ? ? ? ? ? ? ?. auto. Qed.

Lemma move_config w w' : move w w' -> config w' = config w.
Proof.
  intros [lvl msg w0|w0|mt p w0|w0|resp w0 Hc|acts w0|w0|w0|w0]; try reflexivity.
  - unfold accept. now destruct (writeChan w0).
  - destruct (Running_or_not w0) as [H|H].
    + apply (Stop_passed _ H).
    + apply (Stop_refused _ H).
  - apply Context_fields.
Qed.

Lemma move_RunState w w' :
  move w w' ->
  RunState w' = RunState w \/ (RunState w = Running /\ RunState w' = Stopped).
Proof.
  intros [lvl msg w0|w0|mt p w0|w0|resp w0 Hc|acts w0|w0|w0|w0];
    try (left; reflexivity).
  - left. unfold accept. now destruct (writeChan w0).
  - destruct (Running_or_not w0) as [H|H].
    + right. split; [exact H|apply (Stop_passed _ H)].
    + left. apply (Stop_refused _ H).
  - left. apply Context_fields.
Qed.

Lemma move_callback w w' d0 :
  move w w' ->
  disconnects (trace w) = d0 ++ callbackDue w ->
  disconnects (trace w') = d0 ++ callbackDue w'.
Proof.
  intros [lvl msg w0|w0|mt p w0|w0|resp w0 Hc|acts w0|w0|w0|w0] H;
    try (cbn [trace emit]; rewrite disconnects_app, H; cbn; now rewrite app_nil_r);
    try exact H.
  - unfold accept. destruct (writeChan w0); [|exact H].
    cbn [trace emit]. rewrite disconnects_app. cbn [trace set_writeChan].
    rewrite H. cbn. now rewrite app_nil_r.
  - destruct (Running_or_not w0) as [Hr|Hr].
    + destruct (Stop_passed _ Hr) as (_ & Hs & Ht & _ & _ & _ & Hc).
      apply config_eq in Hc as [Ha Ho].
      unfold callbackDue in *. rewrite Hs, Ht. rewrite Hr in H.
      rewrite Ho, Ha. rewrite !disconnects_app, H.
      destruct (onDisconnect w0), (ctx w0); cbn; now rewrite ?app_nil_r.
    + destruct (Stop_refused _ Hr) as (_ & Hs & Ht & _ & _ & _ & Hc).
      apply config_eq in Hc as [Ha Ho].
      unfold callbackDue in *. now rewrite Hs, Ht, Ho, Ha.
  - destruct (Context_fields w0) as (Hs & Ht & _ & _ & Hc & _).
    apply config_eq in Hc as [Ha Ho].
    unfold callbackDue in *. now rewrite Hs, Ht, Ho, Ha.
Qed.

Lemma receiver_dataqsiz {A : Type} (acts : list receiverAct) (c : hchan A) :
  dataqsiz (fold_left receiver acts c) = dataqsiz c /\
  (chan_ok c -> chan_ok (fold_left receiver acts c)).
Proof.
  revert c. induction acts as [|a acts IH]; intros c; [easy|].
  cbn [fold_left]. destruct (IH (receiver c a)) as [-> Hok]. split.
  - destruct a; cbn; unfold chanrecv; now destruct (qbuf c).
  - intros Hc. apply Hok, chan_ok_receiver, Hc.
Qed.

Lemma move_queue n w w' : move w w' -> queueWithin n w -> queueWithin n w'.
Proof.
  intros [lvl msg w0|w0|mt p w0|w0|resp w0 Hc|acts w0|w0|w0|w0] (c & Hw & Hok & Hn);
    try (exists c; split_and!; assumption).
  - unfold accept. rewrite Hw in *. exists (chansend c resp). split_and!.
    + reflexivity.
    + now apply chan_ok_chansend.
    + rewrite <- Hn. unfold chansend. now destruct (recvq c).
  - exists (fold_left receiver acts c). cbn. rewrite Hw. cbn.
    destruct (receiver_dataqsiz acts c) as [Hd Hk]. split_and!; auto. congruence.
  - exists c. destruct (Running_or_not w0) as [Hr|Hr].
    + destruct (Stop_passed _ Hr) as (_ & _ & _ & _ & -> & _). auto.
    + destruct (Stop_refused _ Hr) as (_ & _ & _ & _ & -> & _). auto.
  - exists c. destruct (Context_fields w0) as (_ & _ & -> & _). auto.
Qed.

Lemma moves_keep (P : wsConnection -> Prop) w w' :
  (forall a b, move a b -> P a -> P b) -> rtc move w w' -> P w -> P w'.
Proof. intros Hstep H. induction H; eauto. Qed.

(** ** Every operation is a sequence of moves *)

Lemma rtc_move_step w a b : rtc move w a -> move a b -> rtc move w b.
Proof. intros H1 H2. eapply rtc_r; eassumption. Qed.

Lemma setReadDeadline_moves t w : rtc move w (setReadDeadline t w).
Proof.
  unfold setReadDeadline. destruct (rt_deadline t); [|reflexivity].
  apply rtc_once, move_log.
Qed.

Lemma respond_moves t w0 w resp :
  rtc move w0 w -> rtc move w0 (fst (respond t w resp)).
Proof.
  intros H. rewrite respond_cases. destruct (can_send (writeChan w)) eqn:E; cbn.
  - eapply rtc_move_step; [exact H|now apply move_accept].
  - exact H.
Qed.

Lemma dispatch_moves t w request : rtc move w (fst (dispatch t w request)).
Proof.
  unfold dispatch. destruct (ID request).
  2:{ apply rtc_once, move_log. }
  destruct (funcMap w !! Method request) as [rpcFunc|]; [|now apply respond_moves].
  destruct (callArgs w rpcFunc request) as [args|err]; [|now apply respond_moves].
  destruct (f rpcFunc args) as [result err|r]; [|reflexivity].
  destruct (responseOf request result err) as [resp|r].
  - apply respond_moves, rtc_once, move_log.
  - apply rtc_once, move_log.
Qed.

Lemma loopBody_moves t w : rtc move w (fst (loopBody t w)).
Proof.
  unfold loopBody. destruct (selectgo _ _ _); try reflexivity.
  all: destruct (rt_next t) as [closeNormal e|[e|request]].
  all: try (apply respond_moves, setReadDeadline_moves).
  all: try (etransitivity; [apply setReadDeadline_moves|apply dispatch_moves]).
  all: set (w0 := if closeNormal
                  then emit (EvLog LInfo "Client closed the connection")
                         (setReadDeadline t w)
                  else emit (EvLog LError "Failed to read request")
                         (setReadDeadline t w)).
  all: assert (H0 : rtc move w w0)
         by (unfold w0; destruct closeNormal;
             (eapply rtc_move_step; [apply setReadDeadline_moves|apply move_log])).
  all: pose proof (move_Stop w0) as HS; destruct (Stop w0) as [w1 [e1|]];
       cbn [fst] in HS.
  all: assert (H1 : rtc move w w1) by (eapply rtc_move_step; eassumption).
  all: destruct (readRoutineQuit _); cbn [fst];
       repeat first [ exact H1
                    | eapply rtc_move_step; [|apply move_quit]
                    | eapply rtc_move_step; [|apply move_log] ].
Qed.

Lemma recovered_moves t w r : rtc move w (fst (recovered t w r)).
Proof.
  unfold recovered. rewrite WriteRPCResponse_writeCtx.
  match goal with |- context [can_send ?x] => destruct (can_send x) eqn:E end;
    cbn [fst].
  - eapply rtc_move_step; [|apply move_go].
    eapply rtc_move_step; [|apply move_accept; exact E].
    apply rtc_once, move_log.
  - apply rtc_once, move_log.
Qed.

Lemma readRoutine_moves ticks w : rtc move w (fst (readRoutine ticks w)).
Proof.
  revert w. induction ticks as [|t ticks IH]; intros w; [reflexivity|].
  cbn [readRoutine].
  assert (H : rtc move w (fst (loopBody t (drain (rt_writer t) w)))).
  { etransitivity; [apply rtc_once, move_drain|apply loopBody_moves]. }
  destruct (loopBody t (drain (rt_writer t) w)) as [w1 [| | |r]]; cbn [fst] in H;
    try exact H.
  - etransitivity; [exact H|apply IH].
  - pose proof (recovered_moves t w1 r) as Hr.
    destruct (recovered t w1 r) as [w2 [|]]; cbn [fst] in Hr.
    + etransitivity; [exact H|]. etransitivity; [exact Hr|apply IH].
    + etransitivity; eassumption.
Qed.

Lemma TryWriteRPCResponse_moves rnd w ctx0 resp w' b :
  TryWriteRPCResponse rnd w ctx0 resp = Some (w', b) -> rtc move w w'.
Proof.
  rewrite TryWriteRPCResponse_cases.
  destruct (Done ctx0), (can_send (writeChan w)) eqn:E;
    try destruct (_ =? _); intros [= <- <-];
    first [reflexivity | now apply rtc_once, move_accept].
Qed.

Lemma WriteRPCResponse_moves rnd w ctx0 resp w' e :
  WriteRPCResponse rnd w ctx0 resp = Some (w', e) -> rtc move w w'.
Proof.
  rewrite WriteRPCResponse_cases.
  destruct (Done ctx0), (can_send (writeChan w)) eqn:E;
    try destruct (_ =? _); intros [= <- <-];
    first [reflexivity | now apply rtc_once, move_accept].
Qed.

Lemma TryWrite_all_moves calls ctx0 w : rtc move w (fst (TryWrite_all calls ctx0 w)).
Proof.
  revert w. induction calls as [|[rnd resp] calls IH]; intros w; [reflexivity|].
  cbn [TryWrite_all].
  destruct (TryWriteRPCResponse rnd w ctx0 resp) as [[w1 b]|] eqn:E; [|reflexivity].
  specialize (IH w1). destruct (TryWrite_all calls ctx0 w1) as [w2 bs].
  cbn [fst] in *. etransitivity; [|exact IH].
  eapply TryWriteRPCResponse_moves, E.
Qed.

Section WriterMoves.

Variable MarshalIndent : RPCResponse -> list byte + error.

Lemma writeStep_moves t w : rtc move w (fst (writeStep MarshalIndent t w)).
Proof.
  unfold writeStep.
  destruct (wt_case t) as [| |m| |msg]; try reflexivity;
    try destruct (MarshalIndent msg) as [b|e];
    rewrite ?writeMessageWithDeadline_cases;
    try destruct (wt_deadline t); try destruct (wt_write t); cbn [fst];
    first [ apply rtc_once, move_log | apply rtc_once, move_frame ].
Qed.

Lemma writeRoutine_moves ticks w :
  rtc move w (fst (writeRoutine MarshalIndent ticks w)).
Proof.
  revert w. induction ticks as [|t ticks IH]; intros w; [reflexivity|].
  cbn [writeRoutine]. pose proof (writeStep_moves t w) as H.
  destruct (writeStep MarshalIndent t w) as [w1 [|]]; cbn [fst] in *.
  - etransitivity; [exact H|apply IH].
  - eapply rtc_move_step; [exact H|apply move_ticker].
Qed.

Lemma serve_moves turns w rs :
  rtc move w (fst (fst (serve MarshalIndent turns w rs))).
Proof.
  revert w rs. induction turns as [|[t|t] turns IH]; intros w rs; [reflexivity| |].
  - cbn [serve]. destruct rs; try apply IH.
    pose proof (readRoutine_moves [t] w) as H.
    destruct (readRoutine [t] w) as [w1 rs1]. cbn [fst] in H.
    etransitivity; [exact H|apply IH].
  - cbn [serve]. pose proof (writeStep_moves t w) as H.
    destruct (writeStep MarshalIndent t w) as [w1 [|]]; cbn [fst] in *.
    + etransitivity; [exact H|apply IH].
    + eapply rtc_move_step; [exact H|apply move_ticker].
Qed.

End WriterMoves.

(** ** The loops over time *)

Lemma readRoutine_cons t rest w :
  readRoutine (t :: rest) w =
  match readRoutine [t] w with
  | (w1, Reading) => readRoutine rest w1
  | r => r
  end.
Proof.
  cbn [readRoutine]. destruct (loopBody t (drain (rt_writer t) w)) as [w1 [| | |r]];
    try reflexivity.
  destruct (recovered t w1 r) as [w2 [|]]; reflexivity.
Qed.

Section LoopsOverTime.

Variable MarshalIndent : RPCResponse -> list byte + error.

Lemma writeRoutine_cons t rest w :
  writeRoutine MarshalIndent (t :: rest) w =
  match writeRoutine MarshalIndent [t] w with
  | (w1, Writing) => writeRoutine MarshalIndent rest w1
  | r => r
  end.
Proof.
  cbn [writeRoutine]. now destruct (writeStep MarshalIndent t w) as [w1 [|]].
Qed.

(** Both loops can be run in pieces: running a loop over two stretches of
    iterations one after the other is running it over the first stretch and,
    if it is still at the head of its loop, over the second from the
    connection it left. *)
Lemma loops_compose
    (rticks1 rticks2 : list rtick) (wticks1 wticks2 : list wtick)
    (w : wsConnection) :
  readRoutine (rticks1 ++ rticks2) w =
    match readRoutine rticks1 w with
    | (w1, Reading) => readRoutine rticks2 w1
    | r => r
    end /\
  writeRoutine MarshalIndent (wticks1 ++ wticks2) w =
    match writeRoutine MarshalIndent wticks1 w with
    | (w1, Writing) => writeRoutine MarshalIndent wticks2 w1
    | r => r
    end.
Proof.
  split.
  - revert w. induction rticks1 as [|t ts IH]; intros w; [reflexivity|].
    cbn [app]. rewrite (readRoutine_cons t (ts ++ rticks2)), (readRoutine_cons t ts).
    destruct (readRoutine [t] w) as [w1 []]; try reflexivity. apply IH.
  - revert w. induction wticks1 as [|t ts IH]; intros w; [reflexivity|].
    cbn [app]. rewrite (writeRoutine_cons t (ts ++ wticks2)), (writeRoutine_cons t ts).
    destruct (writeRoutine MarshalIndent [t] w) as [w1 []]; try reflexivity. apply IH.
Qed.

(** Serving with turns of one loop only is that loop on its own: the
    turn-taking adds nothing to either loop. *)
Lemma serve_one_loop_only
    (rticks : list rtick) (wticks : list wtick) (w : wsConnection) (rs : rstatus) :
  serve MarshalIndent (map WriteTurn wticks) w rs =
    (fst (writeRoutine MarshalIndent wticks w), rs,
     snd (writeRoutine MarshalIndent wticks w)) /\
  serve MarshalIndent (map ReadTurn rticks) w Reading =
    (fst (readRoutine rticks w), snd (readRoutine rticks w), Writing).
Proof.
  split.
  - revert w. induction wticks as [|t ts IH]; intros w; [reflexivity|].
    cbn [map serve writeRoutine].
    destruct (writeStep MarshalIndent t w) as [w1 [|]]; [apply IH|reflexivity].
  - assert (Hskip : forall ts w' rs', rs' <> Reading ->
              serve MarshalIndent (map ReadTurn ts) w' rs' = (w', rs', Writing)).
    { induction ts as [|t ts IH]; intros w' rs' Hrs; [reflexivity|].
      cbn [map serve]. destruct rs'; [congruence| |]; now apply IH. }
    revert w. induction rticks as [|t ts IH]; intros w; [reflexivity|].
    cbn [map serve]. rewrite (readRoutine_cons t ts).
    destruct (readRoutine [t] w) as [w1 []]; cbn [fst snd].
    + rewrite IH. reflexivity.
    + now apply Hskip.
    + now apply Hskip.
Qed.

(** What one iteration of the write loop adds to the trace. *)
Lemma writeStep_adds t w :
  exists es,
    trace (fst (writeStep MarshalIndent t w)) = trace w ++ es /\
    Forall writerEvent es /\
    textFrames es = match textOf MarshalIndent t with Some b => [b] | None => [] end /\
    snd (writeStep MarshalIndent t w) = negb (endsLoop MarshalIndent t).
Proof.
  unfold writeStep, textOf, endsLoop, failedWrite.
  destruct (wt_case t) as [| |m| |msg];
    try destruct (MarshalIndent msg) as [b|e];
    rewrite ?writeMessageWithDeadline_cases;
    destruct (wt_deadline t), (wt_write t); cbn;
    first [ exists []; rewrite app_nil_r; cbn; split_and!;
              [reflexivity|constructor|reflexivity|reflexivity]
          | eexists [_]; cbn; split_and!;
              [reflexivity|repeat constructor|reflexivity|reflexivity] ].
Qed.

Lemma writeRoutine_status ticks w :
  snd (writeRoutine MarshalIndent ticks w) =
    (if existsb (endsLoop MarshalIndent) ticks then WReturned else Writing).
Proof.
  revert w. induction ticks as [|t ts IH]; intros w; [reflexivity|].
  cbn [writeRoutine existsb].
  destruct (writeStep_adds t w) as (es & _ & _ & _ & Hs).
  destruct (writeStep MarshalIndent t w) as [w1 b]. cbn [snd] in Hs. subst b.
  destruct (endsLoop MarshalIndent t); cbn; [reflexivity|apply IH].
Qed.

Lemma writeRoutine_stops_at pre t post w :
  existsb (endsLoop MarshalIndent) pre = false ->
  endsLoop MarshalIndent t = true ->
  writeRoutine MarshalIndent (pre ++ t :: post) w =
  writeRoutine MarshalIndent (pre ++ [t]) w.
Proof.
  intros Hpre Ht. revert w.
  induction pre as [|p pre IH]; intros w.
  - cbn [app writeRoutine].
    destruct (writeStep_adds t w) as (es & _ & _ & _ & Hs).
    destruct (writeStep MarshalIndent t w) as [w1 b]. cbn [snd] in Hs. subst b.
    now rewrite Ht.
  - cbn [existsb] in Hpre. apply orb_false_iff in Hpre as [Hp Hpre].
    cbn [app writeRoutine].
    destruct (writeStep MarshalIndent p w) as [w1 [|]]; [now apply IH|reflexivity].
Qed.

Lemma writeRoutine_trace ticks w :
  exists es,
    Forall writerEvent es /\
    trace (fst (writeRoutine MarshalIndent ticks w)) =
      trace w ++ es
      ++ (if existsb (endsLoop MarshalIndent) ticks then [EvTickerStop] else []).
Proof.
  revert w. induction ticks as [|t ts IH]; intros w.
  - exists []. split; [constructor|]. cbn. now rewrite app_nil_r.
  - cbn [writeRoutine existsb].
    destruct (writeStep_adds t w) as (es & Ht & Hn & _ & Hs).
    destruct (writeStep MarshalIndent t w) as [w1 b]. cbn [fst snd] in *. subst b.
    destruct (endsLoop MarshalIndent t); cbn [negb orb].
    + exists es. split; [exact Hn|]. cbn [fst trace emit]. now rewrite Ht, <- app_assoc.
    + destruct (IH w1) as (es' & Hn' & Ht').
      exists (es ++ es'). split.
      * apply Forall_app. auto.
      * rewrite Ht', Ht, <- !app_assoc. reflexivity.
Qed.

(** X4.  The write loop returns exactly at its first iteration that finds
    the context done, the reader's quit signal, a failed ping or a failed
    write of a response: a failed pong or a response that cannot be encoded
    never ends it, and iterations after that one do not happen.  The ticker
    is stopped once, as the last thing, when the loop returns, and not
    before; apart from that the loop only logs and writes frames. *)
Theorem writeRoutine_ends (ticks : list wtick) (w : wsConnection) :
  snd (writeRoutine MarshalIndent ticks w) =
    (if existsb (endsLoop MarshalIndent) ticks then WReturned else Writing) /\
  (forall pre t post,
     ticks = pre ++ t :: post ->
     existsb (endsLoop MarshalIndent) pre = false ->
     endsLoop MarshalIndent t = true ->
     writeRoutine MarshalIndent ticks w = writeRoutine MarshalIndent (pre ++ [t]) w) /\
  (exists es,
     Forall writerEvent es /\
     trace (fst (writeRoutine MarshalIndent ticks w)) =
       trace w ++ es
       ++ (if existsb (endsLoop MarshalIndent) ticks then [EvTickerStop] else [])).
Proof.
  split_and!.
  - apply writeRoutine_status.
  - intros pre t post -> Hpre Ht. now apply writeRoutine_stops_at.
  - apply writeRoutine_trace.
Qed.

(** X5.  The text frames that the write loop puts on the socket are, in the
    order of the iterations, the encodings of the responses it received whose
    encoding and write succeeded: nothing is written twice, out of order or
    without having been received.  While the loop has not returned these are
    all such responses; when it returns, those of the iterations before the
    one that ended it. *)
Theorem writeRoutine_writes_in_order (ticks : list wtick) (w : wsConnection) :
  (exists k,
     k <= length ticks /\
     textFrames (trace (fst (writeRoutine MarshalIndent ticks w))) =
       textFrames (trace w) ++ omap (textOf MarshalIndent) (take k ticks)) /\
  (snd (writeRoutine MarshalIndent ticks w) = Writing ->
   textFrames (trace (fst (writeRoutine MarshalIndent ticks w))) =
     textFrames (trace w) ++ omap (textOf MarshalIndent) ticks).
Proof.
  assert (Hstep : forall t w0,
            textFrames (trace (fst (writeStep MarshalIndent t w0))) =
            textFrames (trace w0) ++ omap (textOf MarshalIndent) [t]).
  { intros t w0. destruct (writeStep_adds t w0) as (es & -> & _ & Hf & _).
    rewrite textFrames_app, Hf. cbn. now destruct (textOf MarshalIndent t). }
  split.
  - revert w. induction ticks as [|t ts IH]; intros w.
    + exists 0. split; [reflexivity|]. cbn. now rewrite app_nil_r.
    + cbn [writeRoutine]. pose proof (Hstep t w) as Ht.
      destruct (writeStep MarshalIndent t w) as [w1 [|]]; cbn [fst] in Ht.
      * destruct (IH w1) as (k & Hk & ->). exists (S k). split; [cbn; lia|].
        rewrite Ht, <- app_assoc. f_equal. cbn.
        now destruct (textOf MarshalIndent t).
      * exists 1. split; [cbn; lia|]. cbn [fst trace emit].
        rewrite textFrames_app, Ht. cbn [take textFrames]. now rewrite app_nil_r.
  - revert w. induction ticks as [|t ts IH]; intros w.
    + intros _. cbn. now rewrite app_nil_r.
    + cbn [writeRoutine]. pose proof (Hstep t w) as Ht.
      destruct (writeStep MarshalIndent t w) as [w1 [|]]; cbn [fst snd] in *;
        [|discriminate].
      intros Hw. rewrite (IH w1 Hw), Ht, <- app_assoc. f_equal. cbn.
      now destruct (textOf MarshalIndent t).
Qed.

End LoopsOverTime.

Lemma writeRoutine_ends_witness :
  let pong := {| wt_case := Pong "p"; wt_deadline := None;
                 wt_write := Some (errorString "broken pipe") |} in
  let ping := {| wt_case := PingTick; wt_deadline := None;
                 wt_write := Some (errorString "broken pipe") |} in
  let msg := {| wt_case := Msg Sample.pending; wt_deadline := None;
                wt_write := None |} in
  writeRoutine Sample.marshal [pong; msg; ping; msg] Sample.running =
  writeRoutine Sample.marshal [pong; msg; ping] Sample.running.
Proof.
  cbv zeta.
  match goal with |- writeRoutine _ ?ticks _ = _ =>
    destruct (writeRoutine_ends Sample.marshal ticks Sample.running) as (_ & H & _)
  end.
  match goal with |- writeRoutine _ [?a; ?b; ?c; ?d] _ = _ =>
    apply (H [a; b] c [d])
  end; reflexivity.
Defined.

Lemma writeRoutine_writes_in_order_witness :
  let pong := {| wt_case := Pong "p"; wt_deadline := None;
                 wt_write := Some (errorString "broken pipe") |} in
  let msg := {| wt_case := Msg Sample.pending; wt_deadline := None;
                wt_write := None |} in
  textFrames (trace (fst (writeRoutine Sample.marshal [msg; pong; msg] Sample.running)))
  = [[x7b; x7d]; [x7b; x7d]]%byte.
Proof.
  cbv zeta.
  match goal with |- context [writeRoutine _ ?ticks _] =>
    destruct (writeRoutine_writes_in_order Sample.marshal ticks Sample.running)
      as (_ & H)
  end.
  rewrite H; reflexivity.
Defined.

(** ** Filling the queue *)

Lemma TryWrite_all_room calls ctx0 :
  Done ctx0 = false ->
  forall m w c,
    writeChan w = Some c -> recvq c = false -> handed c = false ->
    dataqsiz c = length (qbuf c) + m ->
    exists c',
      writeChan (fst (TryWrite_all calls ctx0 w)) = Some c' /\
      qbuf c' = qbuf c ++ take m (map snd calls) /\
      dataqsiz c' = dataqsiz c /\
      snd (TryWrite_all calls ctx0 w) =
        replicate (min (length calls) m) true ++ replicate (length calls - m) false /\
      sent (trace (fst (TryWrite_all calls ctx0 w))) =
        sent (trace w) ++ take m (map snd calls).
Proof.
  intros Hd. induction calls as [|[rnd resp] calls IH]; intros m w c Hw Hr Hh Hq.
  - exists c. cbn. rewrite take_nil, !app_nil_r. auto.
  - cbn [TryWrite_all]. rewrite TryWriteRPCResponse_cases, Hd, Hw.
    assert (Hcs : can_send (Some c) = (0 <? m)).
    { unfold can_send, qcount. rewrite Hr, Hh, Hq, Nat.sub_0_r. cbn [orb].
      destruct m; [apply Nat.ltb_ge; lia|apply Nat.ltb_lt; lia]. }
    rewrite Hcs. destruct m as [|m]; cbn [Nat.ltb Nat.leb].
    + destruct (IH 0 w c Hw Hr Hh Hq) as (c' & H1 & H2 & H3 & H4 & H5).
      destruct (TryWrite_all calls ctx0 w) as [w2 bs]. cbn [fst snd] in *.
      exists c'. rewrite H4. cbn [length map take]. rewrite Nat.min_0_r in *.
      rewrite !Nat.sub_0_r in *. rewrite take_0 in *.
      split_and!; first [assumption|reflexivity].
    + assert (Ha : accept w resp =
                   emit (EvSent resp) (set_writeChan (Some (chansend c resp)) w))
        by (unfold accept; now rewrite Hw).
      assert (Hc : chansend c resp =
                   {| dataqsiz := dataqsiz c; qbuf := qbuf c ++ [resp];
                      recvq := false; handed := false |})
        by (unfold chansend; now rewrite Hr, Hh).
      destruct (IH m (accept w resp) (chansend c resp)) as (c' & H1 & H2 & H3 & H4 & H5).
      * now rewrite Ha.
      * now rewrite Hc.
      * now rewrite Hc.
      * rewrite Hc. cbn. rewrite length_app. cbn. lia.
      * destruct (TryWrite_all calls ctx0 (accept w resp)) as [w2 bs].
        cbn [fst snd] in *. exists c'. rewrite H1, H2, H3, H4, H5, Hc, Ha.
        cbn [qbuf dataqsiz length map snd take trace emit set_writeChan].
        rewrite sent_app, <- !app_assoc. cbn.
        split_and!; reflexivity.
Qed.

(** X6.  On a channel of capacity [n] on which nobody receives, calls of
    [TryWriteRPCResponse] with a context that is not cancelled succeed
    exactly [n] times: the first [n] responses are queued in the order of
    the calls, every later call returns false and leaves the queue as it
    is. *)
Theorem TryWrite_fills_queue
    (n : nat) (calls : list (nat * RPCResponse)) (ctx0 : context)
    (w : wsConnection) :
  writeChan w = Some (makechan n) ->
  Done ctx0 = false ->
  snd (TryWrite_all calls ctx0 w) =
    replicate (min (length calls) n) true ++ replicate (length calls - n) false /\
  (exists c,
     writeChan (fst (TryWrite_all calls ctx0 w)) = Some c /\
     dataqsiz c = n /\ qbuf c = take n (map snd calls)) /\
  sent (trace (fst (TryWrite_all calls ctx0 w))) =
    sent (trace w) ++ take n (map snd calls).
Proof.
  intros Hw Hd.
  destruct (TryWrite_all_room calls ctx0 Hd n w (makechan n) Hw eq_refl eq_refl eq_refl)
    as (c & H1 & H2 & H3 & H4 & H5).
  split_and!; [exact H4| |exact H5].
  exists c. cbn in H2, H3. auto.
Qed.

Lemma TryWrite_fills_queue_witness :
  let started := fst (Start Sample.marshal Sample.maxChanSize [] Sample.fresh) in
  let r7 := NewRPCSuccessResponse (Some (JSONRPCIntID 7)) Sample.result42 in
  let r8 := NewRPCSuccessResponse (Some (JSONRPCIntID 8)) Sample.result42 in
  snd (TryWrite_all [(0, r7); (1, r8)] Background started) = [true; false] /\
  sent (trace (fst (TryWrite_all [(0, r7); (1, r8)] Background started))) = [r7].
Proof.
  cbv zeta.
  destruct (TryWrite_fills_queue 1
              [ (0, NewRPCSuccessResponse (Some (JSONRPCIntID 7)) Sample.result42);
                (1, NewRPCSuccessResponse (Some (JSONRPCIntID 8)) Sample.result42) ]
              Background (fst (Start Sample.marshal Sample.maxChanSize [] Sample.fresh))
              eq_refl eq_refl) as (H1 & _ & H3).
  split; [exact H1|exact H3].
Defined.

(** ** The connection's context *)

Lemma move_stopped_ctx a b :
  move a b ->
  RunState a = Stopped /\ ctx a = Some (WithCancel None) ->
  RunState b = Stopped /\ ctx b = Some (WithCancel None).
Proof.
  intros Hab [Ha Hx].
  destruct Hab as [lvl msg w0|w0|mt p w0|w0|resp w0 Hc|acts w0|w0|w0|w0];
    try (split; assumption).
  - unfold accept. destruct (writeChan w0); split; assumption.
  - destruct (Stop_refused w0) as (_ & H1 & _ & H2 & _); [congruence|].
    split; congruence.
  - destruct (Context_fields w0) as (H1 & _ & _ & _ & _ & _ & Hsame & _).
    rewrite (Hsame _ Hx). cbn. auto.
Qed.

(** X7.  [Context] creates the connection's context on the first call and
    returns that same context ever after.  [Stop] cancels the context only
    if it exists: a context asked for before [Stop] is cancelled by it, with
    the error Canceled; a context first asked for after [Stop] is not
    cancelled, and no later [Stop] cancels it, since the guard refuses
    every later [Stop]. *)
Theorem Context_and_Stop (w : wsConnection) :
  RunState w = Running ->
  ctx w = None ->
  Context_ (fst (Context_ w)) = (fst (Context_ w), snd (Context_ w)) /\
  (let asked := snd (Context_ (fst (Stop (fst (Context_ w))))) in
   Done asked = true /\ Err asked = Some Canceled) /\
  (let late := fst (Context_ (fst (Stop w))) in
   Done (snd (Context_ (fst (Stop w)))) = false /\
   forall w', rtc move late w' ->
     ctx w' = Some (WithCancel None) /\ Done (snd (Context_ w')) = false).
Proof.
  intros Hr Hc. split_and!.
  - destruct (Context_fields w) as (_ & _ & _ & _ & _ & Hx & _).
    destruct (Context_fields (fst (Context_ w))) as (_ & _ & _ & _ & _ & _ & Hsame & _).
    now rewrite (Hsame _ Hx).
  - cbv zeta. destruct (Context_fields w) as (Hs & _ & _ & _ & _ & Hx & _ & Hnew).
    rewrite (Hnew Hc) in Hx.
    destruct (Stop_passed (fst (Context_ w))) as (_ & _ & _ & Hctx & _);
      [now rewrite Hs|].
    rewrite Hx in Hctx. cbn in Hctx.
    destruct (Context_fields (fst (Stop (fst (Context_ w)))))
      as (_ & _ & _ & _ & _ & _ & Hsame & _).
    rewrite (Hsame _ Hctx). cbn. auto.
  - cbv zeta.
    destruct (Stop_passed w Hr) as (_ & Hs & _ & Hctx & _).
    rewrite Hc in Hctx. cbn in Hctx.
    destruct (Context_fields (fst (Stop w))) as (Hs' & _ & _ & _ & _ & Hx & _ & Hnew).
    rewrite (Hnew Hctx) in *. split; [reflexivity|].
    intros w' Hm.
    assert (Hinv : RunState w' = Stopped /\ ctx w' = Some (WithCancel None)).
    { refine (moves_keep _ _ _ move_stopped_ctx Hm _). split; congruence. }
    destruct Hinv as [_ Hx']. split; [exact Hx'|].
    destruct (Context_fields w') as (_ & _ & _ & _ & _ & _ & Hsame & _).
    now rewrite (Hsame _ Hx').
Qed.

Lemma Context_and_Stop_witness :
  let started := fst (Start Sample.marshal Sample.maxChanSize [] Sample.fresh) in
  Err (snd (Context_ (fst (Stop (fst (Context_ started)))))) = Some Canceled /\
  Done (snd (Context_ (fst (Stop (fst (Context_ (fst (Stop started)))))))) = false.
Proof.
  cbv zeta.
  destruct (Context_and_Stop (fst (Start Sample.marshal Sample.maxChanSize [] Sample.fresh))
              eq_refl eq_refl) as (_ & [_ H2] & [_ H3]).
  split; [exact H2|].
  apply H3, rtc_once, move_Stop.
Defined.

(** ** More on the inbound loop *)

Lemma readRoutine_one t w :
  readRoutine [t] w =
  match loopBody t (drain (rt_writer t) w) with
  | (w1, BContinue) => (w1, Reading)
  | (w1, BReturn) => (w1, Returned)
  | (w1, BParked) => (w1, ParkedInWrite)
  | (w1, BPanic r) =>
      match recovered t w1 r with
      | (w2, true) => (w2, Reading)
      | (w2, false) => (w2, ParkedInWrite)
      end
  end.
Proof. reflexivity. Qed.

(** X8.  A frame that cannot be decoded is answered with the parse-error
    response built from the decoding error, which carries no request id; the
    response is then in the outbound channel, behind the responses that were
    there; the loop goes on with the next frame and the connection stays as
    it was: it is not stopped and the quit channel is not closed.  While the
    outbound channel cannot take the response the loop is parked in the
    enqueue. *)
Theorem malformed_frame_answered
    (t : rtick) (rest : list rtick) (w : wsConnection) (err : error) :
  Done (rt_ctx t) = false ->
  rt_next t = Frame (DecodeErr err) ->
  let resp := RPCParseError (Errorf_w "error unmarshaling request" err) in
  let w1 := setReadDeadline t (drain (rt_writer t) w) in
  rID resp = None /\
  (can_send (writeChan w1) = true ->
     readRoutine (t :: rest) w = readRoutine rest (accept w1 resp) /\
     sent (trace (accept w1 resp)) = sent (trace w) ++ [resp] /\
     RunState (accept w1 resp) = RunState w /\
     readRoutineQuit (accept w1 resp) = readRoutineQuit w /\
     exists c c',
       writeChan w1 = Some c /\ writeChan (accept w1 resp) = Some c' /\
       qbuf c' = qbuf c ++ [resp] /\ dataqsiz c' = dataqsiz c) /\
  (can_send (writeChan w1) = false ->
     readRoutine (t :: rest) w = (w1, ParkedInWrite)).
Proof.
  intros Hd Hn resp w1.
  assert (Hb : loopBody t (drain (rt_writer t) w) = respond t w1 resp).
  { unfold loopBody. now rewrite selectgo_one, Hd, Hn. }
  split_and!; [reflexivity| |].
  - intros Hc. cbn [readRoutine]. rewrite Hb, respond_cases, Hc.
    destruct (setReadDeadline_keeps t (drain (rt_writer t) w)) as (_ & _ & _ & Hs).
    split_and!; [reflexivity| | | |].
    + fold w1 in Hs. now rewrite (sent_accept _ _ Hc), Hs.
    + unfold accept, w1, setReadDeadline.
      destruct (writeChan _), (rt_deadline t); reflexivity.
    + unfold accept, w1, setReadDeadline.
      destruct (writeChan _), (rt_deadline t); reflexivity.
    + exact (accept_queue w1 resp Hc).
  - intros Hc. cbn [readRoutine]. now rewrite Hb, respond_cases, Hc.
Qed.

Lemma malformed_frame_answered_witness :
  let bad := {| rt_ctx := WithCancel None; rt_deadline := None;
                rt_next := Frame (DecodeErr (errorString "unexpected EOF"));
                rt_writer := []; rt_rnd := 0 |} in
  readRoutine [bad; Sample.frame (Sample.req None "health" [])] Sample.running =
  readRoutine [Sample.frame (Sample.req None "health" [])]
    (accept (setReadDeadline bad (drain [] Sample.running))
       (RPCParseError (Errorf_w "error unmarshaling request"
                         (errorString "unexpected EOF")))) /\
  qbuf <$> writeChan (fst (readRoutine [bad] Sample.running)) =
    Some [RPCParseError (Errorf_w "error unmarshaling request"
                           (errorString "unexpected EOF"))].
Proof.
  cbv zeta.
  destruct (malformed_frame_answered
              {| rt_ctx := WithCancel None; rt_deadline := None;
                 rt_next := Frame (DecodeErr (errorString "unexpected EOF"));
                 rt_writer := []; rt_rnd := 0 |}
              [Sample.frame (Sample.req None "health" [])] Sample.running
              (errorString "unexpected EOF") eq_refl eq_refl) as (_ & H & _).
  split; [apply H; reflexivity|].
  destruct (malformed_frame_answered
              {| rt_ctx := WithCancel None; rt_deadline := None;
                 rt_next := Frame (DecodeErr (errorString "unexpected EOF"));
                 rt_writer := []; rt_rnd := 0 |}
              [] Sample.running
              (errorString "unexpected EOF") eq_refl eq_refl) as (_ & H0 & _).
  destruct (H0 eq_refl) as (-> & _ & _ & _ & c & c' & Hc & Hc' & Hq & _).
  cbn [readRoutine fst]. rewrite Hc'. cbn [fmap option_fmap option_map].
  rewrite Hq. vm_compute in Hc. injection Hc as <-. reflexivity.
Defined.

(** X9.  When reading from the socket fails, the loop logs (at info level
    for a normal closure, at error level otherwise), calls [Stop], closes
    the quit channel and returns for good: the frames that follow are not
    read and nothing is enqueued.  If the connection was running it is now
    stopped; if it was already stopped, the refusal of [Stop] is logged and
    the quit channel is closed all the same. *)
Theorem read_error_ends_loop
    (t : rtick) (rest : list rtick) (w : wsConnection)
    (closeNormal : bool) (err : error) :
  Done (rt_ctx t) = false ->
  rt_next t = ReadErr closeNormal err ->
  readRoutineQuit w = false ->
  let w' := fst (readRoutine (t :: rest) w) in
  snd (readRoutine (t :: rest) w) = Returned /\
  readRoutine (t :: rest) w = readRoutine [t] w /\
  readRoutineQuit w' = true /\
  sent (trace w') = sent (trace w) /\
  writeChan w' = writeChan (drain (rt_writer t) w) /\
  In (if closeNormal then EvLog LInfo "Client closed the connection"
      else EvLog LError "Failed to read request") (trace w') /\
  (RunState w = Running -> RunState w' = Stopped) /\
  (RunState w <> Running ->
     RunState w' = RunState w /\
     In (EvLog LError "error closing websocket connection") (trace w')).
Proof.
  intros Hd Hn Hq. cbv zeta.
  rewrite (readRoutine_cons t rest), readRoutine_one.
  unfold loopBody. rewrite selectgo_one, Hd, Hn.
  set (w0 := setReadDeadline t (drain (rt_writer t) w)).
  assert (H0 : readRoutineQuit w0 = false /\ RunState w0 = RunState w /\
               sent (trace w0) = sent (trace w) /\
               writeChan w0 = writeChan (drain (rt_writer t) w)).
  { unfold w0, setReadDeadline. destruct (rt_deadline t); cbn;
      rewrite ?sent_app; cbn; rewrite ?app_nil_r; auto. }
  destruct H0 as (Hq0 & Hr0 & Hs0 & Hw0).
  set (w1 := if closeNormal
             then emit (EvLog LInfo "Client closed the connection") w0
             else emit (EvLog LError "Failed to read request") w0).
  assert (H1 : readRoutineQuit w1 = false /\ RunState w1 = RunState w /\
               sent (trace w1) = sent (trace w) /\ writeChan w1 = writeChan w0 /\
               In (if closeNormal then EvLog LInfo "Client closed the connection"
                   else EvLog LError "Failed to read request") (trace w1)).
  { unfold w1. destruct closeNormal; cbn; rewrite sent_app; cbn;
      rewrite app_nil_r, in_app_iff; cbn; auto 10. }
  destruct H1 as (Hq1 & Hr1 & Hs1 & Hw1 & Hl1).
  destruct (Running_or_not w1) as [Hrun|Hrun].
  - destruct (Stop_passed w1 Hrun) as (He & Hs & Ht & _ & Hw & Hqq & _).
    destruct (Stop w1) as [w2 e2]. cbn [fst snd] in *. subst e2.
    rewrite Hqq, Hq1. cbn [fst snd readRoutineQuit set_readRoutineQuit trace writeChan
                           RunState].
    split_and!; try reflexivity.
    + rewrite Ht, !sent_app, Hs1.
      destruct (onDisconnect w1), (ctx w1); cbn; now rewrite ?app_nil_r.
    + congruence.
    + rewrite Ht, in_app_iff. auto.
    + intros _. exact Hs.
    + intros Hnr. congruence.
  - destruct (Stop_refused w1 Hrun) as (He & Hs & Ht & _ & Hw & Hqq & _).
    destruct (Stop w1) as [w2 e2]. cbn [fst snd] in *. subst e2.
    cbn [readRoutineQuit emit]. rewrite Hqq, Hq1.
    cbn [fst snd readRoutineQuit set_readRoutineQuit trace writeChan RunState emit].
    split_and!; try reflexivity.
    + rewrite sent_app, Ht, Hs1. cbn. now rewrite app_nil_r.
    + congruence.
    + rewrite Ht, in_app_iff. auto.
    + intros Hnr. congruence.
    + intros _. split; [congruence|]. rewrite in_app_iff. cbn. auto.
Qed.

Lemma read_error_ends_loop_witness :
  let gone := {| rt_ctx := WithCancel None; rt_deadline := None;
                 rt_next := ReadErr true (errorString "websocket: close 1000 (normal)");
                 rt_writer := []; rt_rnd := 0 |} in
  snd (readRoutine [gone; Sample.frame (Sample.req Sample.id7 "health" [])]
         Sample.running) = Returned /\
  RunState (fst (readRoutine [gone; Sample.frame (Sample.req Sample.id7 "health" [])]
                   Sample.running)) = Stopped.
Proof.
  cbv zeta.
  destruct (read_error_ends_loop
              {| rt_ctx := WithCancel None; rt_deadline := None;
                 rt_next := ReadErr true (errorString "websocket: close 1000 (normal)");
                 rt_writer := []; rt_rnd := 0 |}
              [Sample.frame (Sample.req Sample.id7 "health" [])] Sample.running
              true (errorString "websocket: close 1000 (normal)")
              eq_refl eq_refl eq_refl) as (H1 & _ & _ & _ & _ & _ & H2 & _).
  split; [exact H1|]. apply H2. reflexivity.
Defined.

(** X10.  When the loop's context is done at the head of the loop, the
    inbound loop returns at once and quietly: it does not touch the read
    deadline, reads nothing, enqueues nothing, logs nothing, does not call
    [Stop] and does not close the quit channel, so the callback is not
    called from here and the write loop is not told; the frames that follow
    are not read. *)
Theorem context_done_ends_reading
    (t : rtick) (rest : list rtick) (w : wsConnection) :
  Done (rt_ctx t) = true ->
  let w' := fst (readRoutine (t :: rest) w) in
  snd (readRoutine (t :: rest) w) = Returned /\
  trace w' = trace w /\ RunState w' = RunState w /\
  readRoutineQuit w' = readRoutineQuit w /\ ctx w' = ctx w /\
  writeChan w' = writeChan (drain (rt_writer t) w).
Proof.
  intros Hd. cbv zeta. rewrite (readRoutine_cons t rest), readRoutine_one.
  unfold loopBody. rewrite selectgo_one, Hd. cbn. auto 10.
Qed.

Lemma context_done_ends_reading_witness :
  let t := {| rt_ctx := Sample.cancelled; rt_deadline := None;
              rt_next := Frame (Decoded (Sample.req Sample.id7 "health" []));
              rt_writer := []; rt_rnd := 3 |} in
  let r := readRoutine [t; Sample.frame (Sample.req Sample.id7 "health" [])]
             Sample.running in
  snd r = Returned /\ trace (fst r) = trace Sample.running /\
  RunState (fst r) = Running.
Proof.
  cbv zeta.
  match goal with |- snd (readRoutine (?t :: ?rest) ?w) = _ /\ _ =>
    destruct (context_done_ends_reading t rest w eq_refl)
      as (H1 & H2 & H3 & _)
  end.
  split_and!; [exact H1|exact H2|rewrite H3; reflexivity].
Defined.

Lemma nsent_accept wsc resp :
  can_send (writeChan wsc) = true -> nsent (accept wsc resp) = nsent wsc + 1.
Proof.
  intros H. unfold nsent. rewrite (sent_accept _ _ H), length_app. reflexivity.
Qed.

Lemma respond_continue t w resp :
  match snd (respond t w resp) with
  | BContinue => can_send (writeChan w) = true /\
                 fst (respond t w resp) = accept w resp
  | BParked => can_send (writeChan w) = false /\ fst (respond t w resp) = w
  | _ => False
  end.
Proof. rewrite respond_cases. destruct (can_send (writeChan w)); cbn; auto. Qed.

Lemma responseOf_id request result err resp :
  responseOf request result err = inl resp -> rID resp = ID request.
Proof.
  unfold responseOf. destruct err as [[s|c|[e|]|msg inner]|];
    try destruct (isInvalidRequest _); intros [= <-]; reflexivity.
Qed.

(** X11.  Every response that the loop enqueues for a request that has an
    id, other than after a panic, carries the id of that request: that of
    an unknown method, of parameters that do not bind, and each of the four
    that a handler's outcome maps to.  A pass that completes has put exactly
    that one response in the outbound channel, behind the responses that
    were there. *)
Theorem response_carries_request_id
    (t : rtick) (w : wsConnection) (request : RPCRequest) (id : jsonrpcid) :
  ID request = Some id ->
  snd (dispatch t w request) = BContinue ->
  exists resp,
    sent (trace (fst (dispatch t w request))) = sent (trace w) ++ [resp] /\
    rID resp = Some id /\
    exists c c',
      writeChan w = Some c /\
      writeChan (fst (dispatch t w request)) = Some c' /\
      qbuf c' = qbuf c ++ [resp] /\ dataqsiz c' = dataqsiz c.
Proof.
  intros Hid. unfold dispatch. rewrite Hid.
  assert (Hresp : forall w0 resp,
            sent (trace w0) = sent (trace w) -> writeChan w0 = writeChan w ->
            rID resp = Some id ->
            snd (respond t w0 resp) = BContinue ->
            exists resp', sent (trace (fst (respond t w0 resp))) =
                          sent (trace w) ++ [resp'] /\ rID resp' = Some id /\
                          exists c c',
                            writeChan w = Some c /\
                            writeChan (fst (respond t w0 resp)) = Some c' /\
                            qbuf c' = qbuf c ++ [resp'] /\
                            dataqsiz c' = dataqsiz c).
  { intros w0 resp Hs Hw Hr Hc. pose proof (respond_continue t w0 resp) as H.
    rewrite Hc in H. destruct H as [Hcs ->]. exists resp.
    rewrite (sent_accept _ _ Hcs), Hs. split_and!; [reflexivity|exact Hr|].
    rewrite <- Hw. exact (accept_queue w0 resp Hcs). }
  destruct (funcMap w !! Method request) as [rpcFunc|]; [|now apply Hresp].
  destruct (callArgs w rpcFunc request) as [args|err]; [|now apply Hresp].
  destruct (f rpcFunc args) as [result err|r]; [|discriminate].
  destruct (responseOf request result err) as [resp|r] eqn:E; [|discriminate].
  apply Hresp.
  - cbn. rewrite sent_app. cbn. now rewrite app_nil_r.
  - reflexivity.
  - rewrite (responseOf_id _ _ _ _ E). exact Hid.
Qed.

Lemma response_carries_request_id_witness :
  exists resp,
    sent (trace (fst (dispatch (Sample.frame (Sample.req Sample.id7 "block" [x31]%byte))
                        Sample.running
                        (Sample.req Sample.id7 "block" [x31]%byte)))) =
      sent (trace Sample.running) ++ [resp] /\
    rID resp = Some (JSONRPCIntID 7) /\
    qbuf <$> writeChan
               (fst (dispatch
                       (Sample.frame (Sample.req Sample.id7 "block" [x31]%byte))
                       Sample.running
                       (Sample.req Sample.id7 "block" [x31]%byte))) =
      Some [resp].
Proof.
  destruct (response_carries_request_id
              (Sample.frame (Sample.req Sample.id7 "block" [x31]%byte))
              Sample.running (Sample.req Sample.id7 "block" [x31]%byte)
              (JSONRPCIntID 7) eq_refl eq_refl)
    as (resp & Hs & Hr & c & c' & Hc & Hc' & Hq & _).
  exists resp. split_and!; [exact Hs|exact Hr|].
  rewrite Hc'. cbn [fmap option_fmap option_map]. rewrite Hq.
  vm_compute in Hc. injection Hc as <-. reflexivity.
Defined.

Lemma dispatch_exact t w request :
  match snd (dispatch t w request) with
  | BContinue => nsent (fst (dispatch t w request)) =
                 nsent w + match ID request with Some _ => 1 | None => 0 end
  | BPanic _ => nsent (fst (dispatch t w request)) = nsent w /\ ID request <> None
  | BParked => can_send (writeChan (fst (dispatch t w request))) = false
  | BReturn => False
  end.
Proof.
  unfold dispatch. destruct (ID request) as [id|].
  2:{ cbn. rewrite nsent_emit. cbn. lia. }
  assert (Hresp : forall w0 resp, nsent w0 = nsent w ->
            match snd (respond t w0 resp) with
            | BContinue => nsent (fst (respond t w0 resp)) = nsent w + 1
            | BPanic _ => nsent (fst (respond t w0 resp)) = nsent w /\ Some id <> None
            | BParked => can_send (writeChan (fst (respond t w0 resp))) = false
            | BReturn => False
            end).
  { intros w0 resp Hw. pose proof (respond_continue t w0 resp) as H.
    destruct (snd (respond t w0 resp)); try contradiction.
    - destruct H as [Hc ->]. now rewrite nsent_accept, Hw.
    - destruct H as [Hc ->]. exact Hc. }
  destruct (funcMap w !! Method request) as [rpcFunc|]; [|now apply Hresp].
  destruct (callArgs w rpcFunc request) as [args|err]; [|now apply Hresp].
  destruct (f rpcFunc args) as [result err|r]; [|cbn; split; [reflexivity|discriminate]].
  destruct (responseOf request result err) as [resp|r].
  - apply Hresp. rewrite nsent_emit. cbn. lia.
  - cbn. rewrite nsent_emit. cbn. split; [lia|discriminate].
Qed.

Lemma nsent_setReadDeadline_chan t w :
  writeChan (setReadDeadline t w) = writeChan w.
Proof. apply setReadDeadline_keeps. Qed.

Lemma loopBody_exact t w :
  readRoutineQuit w = false ->
  match snd (loopBody t w) with
  | BContinue => nsent (fst (loopBody t w)) =
                 nsent w + (if isNotification t then 0 else 1) /\
                 readRoutineQuit (fst (loopBody t w)) = false
  | BPanic _ => nsent (fst (loopBody t w)) = nsent w /\ isNotification t = false /\
                readRoutineQuit (fst (loopBody t w)) = false
  | BParked => can_send (writeChan (fst (loopBody t w))) = false /\
               readRoutineQuit (fst (loopBody t w)) = false
  | BReturn => readRoutineQuit (fst (loopBody t w)) = true ->
               RunState (fst (loopBody t w)) <> Running
  end.
Proof.
  intros Hq. unfold loopBody, isNotification. rewrite selectgo_one.
  destruct (Done (rt_ctx t)); [cbn; congruence|]. cbn match.
  assert (Hq0 : readRoutineQuit (setReadDeadline t w) = false)
    by (unfold setReadDeadline; now destruct (rt_deadline t)).
  destruct (rt_next t) as [closeNormal e|[e|request]].
  - set (w0 := if closeNormal
               then emit (EvLog LInfo "Client closed the connection")
                      (setReadDeadline t w)
               else emit (EvLog LError "Failed to read request")
                      (setReadDeadline t w)).
    assert (Hq1 : readRoutineQuit w0 = false) by (unfold w0; now destruct closeNormal).
    destruct (Running_or_not w0) as [Hr|Hr].
    + destruct (Stop_passed w0 Hr) as (He & Hs & _ & _ & _ & Hqq & _).
      destruct (Stop w0) as [w1 e1]. cbn [fst snd] in *. subst e1.
      rewrite Hqq, Hq1. cbn. congruence.
    + destruct (Stop_refused w0 Hr) as (He & Hs & _ & _ & _ & Hqq & _).
      destruct (Stop w0) as [w1 e1]. cbn [fst snd] in *. subst e1.
      cbn [readRoutineQuit emit]. rewrite Hqq, Hq1. cbn. congruence.
  - pose proof (respond_continue t (setReadDeadline t w)
                  (RPCParseError (Errorf_w "error unmarshaling request" e))) as H.
    destruct (snd (respond _ _ _)); try contradiction; destruct H as [Hc ->].
    + rewrite (nsent_accept _ _ Hc), nsent_setReadDeadline. split; [reflexivity|].
      unfold accept. now destruct (writeChan _).
    + auto.
  - pose proof (dispatch_exact t (setReadDeadline t w) request) as H.
    rewrite nsent_setReadDeadline in H.
    assert (Hqd : readRoutineQuit (fst (dispatch t (setReadDeadline t w) request))
                  = false).
    { unfold dispatch. destruct (ID request); [|exact Hq0].
      assert (Hr : forall w0 resp, readRoutineQuit w0 = false ->
                readRoutineQuit (fst (respond t w0 resp)) = false).
      { intros w0 resp H0. rewrite respond_cases.
        destruct (can_send (writeChan w0)); [|exact H0].
        cbn. unfold accept. now destruct (writeChan w0). }
      destruct (funcMap _ !! _) as [rpcFunc|]; [|now apply Hr].
      destruct (callArgs _ rpcFunc request) as [args|err]; [|now apply Hr].
      destruct (f rpcFunc args) as [result err|r]; [|exact Hq0].
      destruct (responseOf request result err); [now apply Hr|exact Hq0]. }
    destruct (snd (dispatch t (setReadDeadline t w) request));
      destruct (ID request); try contradiction; try (split_and!; tauto || lia).
    all: try (destruct H as [H1 H2]; split_and!; auto; congruence).
Qed.

Lemma recovered_exact t w r :
  match recovered t w r with
  | (w', true) => nsent w' = nsent w + 1 /\ readRoutineQuit w' = readRoutineQuit w
  | (w', false) => can_send (writeChan w') = false /\
                   readRoutineQuit w' = readRoutineQuit w
  end.
Proof.
  unfold recovered. rewrite WriteRPCResponse_writeCtx.
  match goal with |- context [can_send ?x] => destruct (can_send x) eqn:E end.
  - rewrite nsent_emit, (nsent_accept _ _ E), nsent_emit. cbn. split; [lia|].
    unfold accept. now destruct (writeChan _).
  - cbn in *. auto.
Qed.

(** X12.  As long as the inbound loop is at the head of its loop, it has
    enqueued exactly one response for every frame that was not a
    notification (a request with an id, a frame that could not be decoded,
    a request whose handler panicked) and none for the notifications.  A
    loop that is parked is parked because the outbound channel cannot take
    its response.  A loop that has closed the quit channel has returned, and
    the connection is then no longer running. *)
Theorem one_response_per_request (ticks : list rtick) (w : wsConnection) :
  readRoutineQuit w = false ->
  let w' := fst (readRoutine ticks w) in
  (snd (readRoutine ticks w) = Reading ->
     nsent w' = nsent w
                + length (List.filter (fun t => negb (isNotification t)) ticks) /\
     readRoutineQuit w' = false) /\
  (snd (readRoutine ticks w) = ParkedInWrite ->
     can_send (writeChan w') = false /\ readRoutineQuit w' = false) /\
  (readRoutineQuit w' = true ->
     snd (readRoutine ticks w) = Returned /\ RunState w' <> Running).
Proof.
  cbv zeta. revert w. induction ticks as [|t ticks IH]; intros w Hq.
  - cbn. split_and!; try discriminate; try congruence. intros _. split; [lia|exact Hq].
  - cbn [readRoutine List.filter].
    pose proof (loopBody_exact t (drain (rt_writer t) w) Hq) as H.
    rewrite nsent_drain in H.
    destruct (loopBody t (drain (rt_writer t) w)) as [w1 [| | |r]] eqn:E;
      cbn [fst snd] in H.
    + destruct H as [Hn Hq1]. destruct (IH w1 Hq1) as (I1 & I2 & I3).
      split_and!; [|exact I2|exact I3].
      intros Hs. destruct (I1 Hs) as [-> ?]. split; [|assumption].
      rewrite Hn. destruct (isNotification t); cbn [negb length]; lia.
    + cbn [fst snd]. split_and!; try discriminate.
      intros Hq1. split; [reflexivity|now apply H].
    + cbn [fst snd]. destruct H as [Hc Hq1].
      split_and!; try discriminate; [auto|congruence].
    + destruct H as (Hn & Hnot & Hq1).
      pose proof (recovered_exact t w1 r) as Hr.
      destruct (recovered t w1 r) as [w2 [|]].
      * destruct Hr as [Hn2 Hq2]. rewrite Hq1 in Hq2.
        destruct (IH w2 Hq2) as (I1 & I2 & I3).
        split_and!; [|exact I2|exact I3].
        intros Hs. destruct (I1 Hs) as [-> ?]. split; [|assumption].
        rewrite Hnot. cbn [negb length]. lia.
      * cbn [fst snd]. destruct Hr as [Hc Hq2].
        split_and!; try discriminate; [split; congruence|congruence].
Qed.

Lemma one_response_per_request_witness :
  let ticks :=
    [ Sample.frame (Sample.req None "health" []);
      Sample.frame (Sample.req Sample.id7 "nope" []);
      Sample.frame (Sample.req (Some (JSONRPCIntID 8)) "nope" []) ] in
  nsent (fst (readRoutine (take 2 ticks) Sample.running)) = 1 /\
  can_send (writeChan (fst (readRoutine ticks Sample.running))) = false.
Proof.
  cbv zeta. split.
  - destruct (one_response_per_request
                [ Sample.frame (Sample.req None "health" []);
                  Sample.frame (Sample.req Sample.id7 "nope" []) ]
                Sample.running eq_refl) as (H & _).
    apply H. reflexivity.
  - destruct (one_response_per_request
                [ Sample.frame (Sample.req None "health" []);
                  Sample.frame (Sample.req Sample.id7 "nope" []);
                  Sample.frame (Sample.req (Some (JSONRPCIntID 8)) "nope" []) ]
                Sample.running eq_refl) as (_ & H & _).
    apply H. reflexivity.
Defined.

(** ** Start, and a connection in service *)

Section InService.

Variable MarshalIndent : RPCResponse -> list byte + error.
Variable maxChanSize : Z.

Lemma writeStep_RunState t w :
  RunState (fst (writeStep MarshalIndent t w)) = RunState w.
Proof.
  unfold writeStep.
  destruct (wt_case t) as [| |m| |msg]; try reflexivity;
    try destruct (MarshalIndent msg) as [b|e];
    rewrite ?writeMessageWithDeadline_cases;
    try destruct (wt_deadline t); try destruct (wt_write t); reflexivity.
Qed.

Lemma writeRoutine_RunState ticks w :
  RunState (fst (writeRoutine MarshalIndent ticks w)) = RunState w.
Proof.
  revert w. induction ticks as [|t ticks IH]; intros w; [reflexivity|].
  cbn [writeRoutine]. pose proof (writeStep_RunState t w) as H.
  destruct (writeStep MarshalIndent t w) as [w1 [|]]; cbn [fst] in *.
  - now rewrite IH.
  - exact H.
Qed.

(** X13.  [Start] on a connection that is not in its initial state returns
    the guard's error and does nothing else: no channel is made, no loop is
    started.  On a fresh connection the guard marks the connection as
    running; then, with a capacity that is negative or beyond what [make]
    can take, the making of the channel panics and nothing else has
    happened.  With a capacity in range [Start] makes the channel with the
    configured capacity and starts the inbound loop as a goroutine, once;
    then, with a ping period that is not positive, the ticker of
    [writeRoutine] panics, with the inbound loop already launched and no
    ticker to stop; with a positive ping period [Start] runs the write loop
    itself and returns nil exactly when the write loop returns: until then
    the caller is blocked in it. *)
Theorem Start_outcomes (wticks : list wtick) (w : wsConnection) :
  let started := fst (Start MarshalIndent maxChanSize wticks w) in
  (RunState w <> NotStarted ->
     snd (Start MarshalIndent maxChanSize wticks w) = StartErr ErrAlreadyStarted /\
     RunState started = RunState w /\ writeChan started = writeChan w /\
     trace started = trace w) /\
  (RunState w = NotStarted ->
   (writeChanCapacity w < 0 \/ maxChanSize < writeChanCapacity w)%Z ->
     snd (Start MarshalIndent maxChanSize wticks w) = StartPanic /\
     RunState started = Running /\ writeChan started = writeChan w /\
     trace started = trace w) /\
  (RunState w = NotStarted ->
   (0 <= writeChanCapacity w <= maxChanSize)%Z ->
     RunState started = Running /\
     writeChan started = Some (makechan (Z.to_nat (writeChanCapacity w))) /\
     ((pingPeriod w <= 0)%Z ->
        snd (Start MarshalIndent maxChanSize wticks w) = StartTickerPanic /\
        trace started = trace w ++ [EvGoReadRoutine]) /\
     ((0 < pingPeriod w)%Z ->
        snd (Start MarshalIndent maxChanSize wticks w) =
          (if existsb (endsLoop MarshalIndent) wticks
           then StartNil else StartBlocked) /\
        exists es, trace started = trace w ++ EvGoReadRoutine :: es /\
                   ~ In EvGoReadRoutine es)).
Proof.
  cbv zeta. unfold Start, NewTicker. split_and!.
  - intros H. destruct (RunState w) eqn:E; [congruence| |]; cbn; auto.
  - intros H Hc. rewrite H. cbn [RunState_Start writeChanCapacity set_RunState].
    destruct (Z.ltb_spec (writeChanCapacity w) 0);
      destruct (Z.ltb_spec maxChanSize (writeChanCapacity w));
      cbn; auto; lia.
  - intros H Hc. rewrite H.
    cbn [RunState_Start writeChanCapacity set_RunState pingPeriod emit
         set_writeChan].
    destruct (Z.ltb_spec (writeChanCapacity w) 0); [lia|].
    destruct (Z.ltb_spec maxChanSize (writeChanCapacity w)); [lia|].
    cbn [orb].
    match goal with |- context [writeRoutine MarshalIndent wticks ?c] =>
      set (w0 := c) end.
    pose proof (writeRoutine_status MarshalIndent wticks w0) as Hs.
    destruct (writeRoutine_trace MarshalIndent wticks w0) as (es & Hn & Ht).
    pose proof (writeRoutine_RunState wticks w0) as Hr.
    pose proof (writeRoutine_writeChan MarshalIndent wticks w0) as Hw.
    destruct (writeRoutine MarshalIndent wticks w0) as [w1 s]. cbn [fst snd] in *.
    subst s.
    assert (Hfst : forall X (g : wsConnection -> X),
              g (fst (match (if existsb (endsLoop MarshalIndent) wticks
                             then WReturned else Writing) with
                      | Writing => (w1, StartBlocked)
                      | WReturned => (w1, StartNil)
                      end)) = g w1)
      by (intros; now destruct (existsb _ _)).
    destruct (Z.ltb_spec 0 (pingPeriod w)) as [Hp|Hp].
    + rewrite !Hfst. split_and!; [exact Hr|exact Hw|lia|]. intros _. split.
      * now destruct (existsb _ _).
      * exists (es ++ if existsb (endsLoop MarshalIndent) wticks
                      then [EvTickerStop] else []).
        split.
        -- rewrite Ht. unfold w0. cbn [trace emit set_writeChan set_RunState].
           now rewrite <- !app_assoc.
        -- rewrite in_app_iff. intros [Hi|Hi].
           ++ rewrite Stdlib.Lists.List.Forall_forall in Hn. exact (Hn _ Hi).
           ++ destruct (existsb _ _); cbn in Hi;
                [destruct Hi as [Hi|[]]; discriminate|contradiction].
    + cbn [fst snd]. split_and!; [reflexivity|reflexivity| |lia].
      intros _. split; reflexivity.
Qed.

End InService.

Lemma Start_outcomes_witness :
  let stop := {| wt_case := ReaderQuit; wt_deadline := None; wt_write := None |} in
  let conn := newWSConnection "10.0.0.7:4242" Sample.routes in
  snd (Start Sample.marshal Sample.maxChanSize [stop] Sample.fresh) = StartNil /\
  snd (Start Sample.marshal Sample.maxChanSize [stop] Sample.running)
  = StartErr ErrAlreadyStarted /\
  snd (Start Sample.marshal Sample.maxChanSize [stop]
         (conn [WriteChanCapacity (-1)])) = StartPanic /\
  snd (Start Sample.marshal Sample.maxChanSize [stop]
         (conn [WriteChanCapacity (2 ^ 62)])) = StartPanic /\
  snd (Start Sample.marshal Sample.maxChanSize [stop] (conn [PingPeriod 0]))
  = StartTickerPanic.
Proof.
  cbv zeta. split_and!.
  - match goal with |- snd (Start _ _ ?ticks ?w) = _ =>
      destruct (Start_outcomes Sample.marshal Sample.maxChanSize ticks w)
        as (_ & _ & H)
    end.
    destruct H as (_ & _ & _ & H);
      [reflexivity|vm_compute; split; discriminate|].
    apply H. reflexivity.
  - match goal with |- snd (Start _ _ ?ticks ?w) = _ =>
      destruct (Start_outcomes Sample.marshal Sample.maxChanSize ticks w)
        as (H & _ & _)
    end.
    apply H. discriminate.
  - match goal with |- snd (Start _ _ ?ticks ?w) = _ =>
      destruct (Start_outcomes Sample.marshal Sample.maxChanSize ticks w)
        as (_ & H & _)
    end.
    apply H; [reflexivity|left; reflexivity].
  - match goal with |- snd (Start _ _ ?ticks ?w) = _ =>
      destruct (Start_outcomes Sample.marshal Sample.maxChanSize ticks w)
        as (_ & H & _)
    end.
    apply H; [reflexivity|right; reflexivity].
  - match goal with |- snd (Start _ _ ?ticks ?w) = _ =>
      destruct (Start_outcomes Sample.marshal Sample.maxChanSize ticks w)
        as (_ & _ & H)
    end.
    destruct H as (_ & _ & H & _);
      [reflexivity|vm_compute; split; discriminate|].
    apply H. discriminate.
Defined.

Lemma moves_config w w' : rtc move w w' -> config w' = config w.
Proof.
  intros H. induction H as [|a b c Hab _ IH]; [reflexivity|].
  rewrite IH. now apply move_config.
Qed.

Lemma moves_RunState w w' :
  rtc move w w' ->
  (RunState w = Stopped -> RunState w' = Stopped) /\
  (RunState w = Running -> RunState w' = Running \/ RunState w' = Stopped) /\
  (RunState w = NotStarted -> RunState w' = NotStarted).
Proof.
  intros H. induction H as [|a b c Hab _ IH]; [auto|].
  destruct IH as (I1 & I2 & I3).
  destruct (move_RunState _ _ Hab) as [E|[E1 E2]]; rewrite ?E in *;
    split_and!; auto; congruence.
Qed.

Lemma moves_callback w w' :
  rtc move w w' ->
  RunState w <> Stopped ->
  disconnects (trace w') = disconnects (trace w) ++ callbackDue w'.
Proof.
  intros H Hs.
  refine (moves_keep
            (fun x => disconnects (trace x) = disconnects (trace w) ++ callbackDue x)
            _ _ _ H _).
  - intros a b Hab. now apply move_callback.
  - unfold callbackDue. destruct (RunState w); try congruence; now rewrite app_nil_r.
Qed.

Section Service.

Variable MarshalIndent : RPCResponse -> list byte + error.
Variable maxChanSize : Z.

Lemma Start_config wticks w :
  config (fst (Start MarshalIndent maxChanSize wticks w)) = config w.
Proof.
  unfold Start. destruct (RunState_Start (RunState w)) as [s [e|]]; [reflexivity|].
  cbn [writeChanCapacity set_RunState].
  destruct ((writeChanCapacity w <? 0) || (maxChanSize <? writeChanCapacity w))%Z;
    [reflexivity|].
  destruct (NewTicker _); [|reflexivity].
  match goal with |- context [writeRoutine MarshalIndent wticks ?c] =>
    pose proof (moves_config _ _ (writeRoutine_moves MarshalIndent wticks c)) as H;
    destruct (writeRoutine MarshalIndent wticks c) as [w1 []]
  end; exact H.
Qed.

(** X14.  The disconnect callback is called once and only by the [Stop]
    that the guard lets through.  On a running connection, however the two
    loops take turns, as long as the connection is running the callback has
    not been called; after the handler's [Stop], whatever the inbound loop
    still does and whoever calls [Stop] again, the connection is stopped and
    the callback, if one is configured, has been called exactly once, with
    the remote address. *)
Theorem callback_called_once
    (turns : list turn) (rs : rstatus) (ticks : list rtick) (w : wsConnection) :
  RunState w = Running ->
  let served := fst (fst (serve MarshalIndent turns w rs)) in
  let after := fst (Stop (fst (readRoutine ticks (fst (Stop served))))) in
  (RunState served = Running ->
     disconnects (trace served) = disconnects (trace w)) /\
  RunState after = Stopped /\
  disconnects (trace after) =
    disconnects (trace w)
    ++ match onDisconnect w with
       | Some _ => [remoteAddr w]
       | None => []
       end.
Proof.
  intros Hr. cbv zeta.
  pose proof (serve_moves MarshalIndent turns w rs) as H1.
  set (served := fst (fst (serve MarshalIndent turns w rs))) in *.
  assert (H2 : rtc move served (fst (Stop served))) by apply rtc_once, move_Stop.
  pose proof (readRoutine_moves ticks (fst (Stop served))) as H3.
  set (w3 := fst (readRoutine ticks (fst (Stop served)))) in *.
  assert (H4 : rtc move w3 (fst (Stop w3))) by apply rtc_once, move_Stop.
  assert (Hnot : RunState w <> Stopped) by congruence.
  split_and!.
  - intros Hs. rewrite (moves_callback _ _ H1 Hnot). unfold callbackDue.
    rewrite Hs. now rewrite app_nil_r.
  - destruct (moves_RunState _ _ H1) as (_ & Hrun & _).
    assert (Hst : RunState (fst (Stop served)) = Stopped).
    { destruct (Hrun Hr) as [E|E].
      - apply (Stop_passed _ E).
      - destruct (Stop_refused served) as (_ & -> & _); congruence. }
    destruct (moves_RunState _ _ H3) as (K3 & _).
    destruct (moves_RunState _ _ H4) as (K4 & _). auto.
  - assert (Hall : rtc move w (fst (Stop w3))).
    { etransitivity; [exact H1|]. etransitivity; [exact H2|].
      etransitivity; [exact H3|exact H4]. }
    rewrite (moves_callback _ _ Hall Hnot).
    destruct (config_eq _ _ (moves_config _ _ Hall)) as [Ha Ho].
    unfold callbackDue. rewrite Ha, Ho.
    destruct (moves_RunState _ _ H1) as (_ & Hrun & _).
    assert (Hst : RunState (fst (Stop served)) = Stopped).
    { destruct (Hrun Hr) as [E|E].
      - apply (Stop_passed _ E).
      - destruct (Stop_refused served) as (_ & -> & _); congruence. }
    destruct (moves_RunState _ _ H3) as (K3 & _).
    destruct (moves_RunState _ _ H4) as (K4 & _).
    now rewrite (K4 (K3 Hst)).
Qed.

(** X15.  The outbound queue is bounded by the configured capacity: when
    the capacity is one that [make] can take, then from [Start] on, however
    the loops take turns and whatever is offered through
    [TryWriteRPCResponse], the channel keeps the capacity it was made with
    and never buffers more responses than that.  This holds whether or not
    the ticker of the write loop could be created: the channel is made
    before it. *)
Theorem queue_never_exceeds_capacity
    (wticks : list wtick) (turns : list turn) (rs : rstatus)
    (calls : list (nat * RPCResponse)) (ctx0 : context) (ticks : list rtick)
    (w : wsConnection) :
  RunState w = NotStarted ->
  (0 <= writeChanCapacity w <= maxChanSize)%Z ->
  let n := Z.to_nat (writeChanCapacity w) in
  let started := fst (Start MarshalIndent maxChanSize wticks w) in
  let served := fst (fst (serve MarshalIndent turns started rs)) in
  let offered := fst (TryWrite_all calls ctx0 served) in
  let final := fst (readRoutine ticks offered) in
  exists c,
    writeChan final = Some c /\ dataqsiz c = n /\ (qcount c <= n)%nat.
Proof.
  intros Hs Hc. cbv zeta.
  assert (H0 : queueWithin (Z.to_nat (writeChanCapacity w))
                 (fst (Start MarshalIndent maxChanSize wticks w))).
  { exists (makechan (Z.to_nat (writeChanCapacity w))). split_and!.
    - now apply Start_makes_writeChan.
    - apply chan_ok_makechan.
    - reflexivity. }
  assert (Hm : rtc move (fst (Start MarshalIndent maxChanSize wticks w))
                 (fst (readRoutine ticks
                    (fst (TryWrite_all calls ctx0
                       (fst (fst (serve MarshalIndent turns
                                    (fst (Start MarshalIndent maxChanSize wticks w))
                                    rs)))))))).
  { etransitivity; [apply (serve_moves MarshalIndent turns _ rs)|].
    etransitivity; [apply TryWrite_all_moves|apply readRoutine_moves]. }
  destruct (moves_keep _ _ _ (move_queue (Z.to_nat (writeChanCapacity w))) Hm H0)
    as (c & Hw & (_ & _ & Hq) & Hd).
  exists c. split_and!; [exact Hw|exact Hd|]. now rewrite <- Hd.
Qed.

(** X16.  Nothing that runs a connection changes what it was constructed
    with: the remote address, the registry, the capacity, the timeouts, the
    read limit and the callback are the same after [Start], the loops,
    [TryWriteRPCResponse], [Context] and [Stop] as before, and
    [GetRemoteAddr] answers the same at any time. *)
Theorem configuration_is_fixed
    (wticks : list wtick) (turns : list turn) (rs : rstatus)
    (calls : list (nat * RPCResponse)) (ctx0 : context) (ticks : list rtick)
    (w : wsConnection) :
  let started := fst (Start MarshalIndent maxChanSize wticks w) in
  let served := fst (fst (serve MarshalIndent turns started rs)) in
  let offered := fst (TryWrite_all calls ctx0 (fst (Context_ served))) in
  let final := fst (readRoutine ticks (fst (Stop offered))) in
  config final = config w /\ GetRemoteAddr final = GetRemoteAddr w.
Proof.
  cbv zeta.
  match goal with |- config ?x = _ /\ _ =>
    enough (H : config x = config w)
      by (split; [exact H|apply (config_eq _ _ H)])
  end.
  rewrite <- (Start_config wticks w).
  apply moves_config.
  etransitivity; [apply (serve_moves MarshalIndent turns _ rs)|].
  etransitivity; [apply rtc_once, move_Context|].
  etransitivity; [apply TryWrite_all_moves|].
  etransitivity; [apply rtc_once, move_Stop|apply readRoutine_moves].
Qed.





End Service.

Lemma callback_called_once_witness :
  let stop := {| wt_case := ReaderQuit; wt_deadline := None; wt_write := None |} in
  let turns := [ReadTurn (Sample.frame (Sample.req Sample.id7 "health" []));
                WriteTurn stop] in
  let served := fst (fst (serve Sample.marshal turns Sample.running Reading)) in
  let after :=
    fst (Stop (fst (readRoutine [Sample.frame (Sample.req Sample.id7 "nope" [])]
                      (fst (Stop served))))) in
  RunState Sample.running = Running /\
  disconnects (trace served) = [] /\
  RunState after = Stopped /\
  disconnects (trace after) = ["10.0.0.7:4242"].
Proof.
  cbv zeta.
  destruct (callback_called_once Sample.marshal
              [ReadTurn (Sample.frame (Sample.req Sample.id7 "health" []));
               WriteTurn {| wt_case := ReaderQuit; wt_deadline := None;
                            wt_write := None |}]
              Reading
              [Sample.frame (Sample.req Sample.id7 "nope" [])]
              Sample.running eq_refl)
    as (H1 & H2 & H3).
  split_and!.
  - reflexivity.
  - rewrite H1; reflexivity.
  - exact H2.
  - rewrite H3. reflexivity.
Defined.

Lemma queue_never_exceeds_capacity_witness :
  let busy := {| wt_case := Pong "p"; wt_deadline := None; wt_write := None |} in
  let frames := [Sample.frame (Sample.req Sample.id7 "health" []);
                 Sample.frame (Sample.req Sample.id7 "nope" [])] in
  let final :=
    fst (readRoutine frames
           (fst (TryWrite_all [(0, Sample.pending); (1, Sample.pending)] Background
                   (fst (fst (serve Sample.marshal (map ReadTurn frames)
                                (fst (Start Sample.marshal Sample.maxChanSize [busy] Sample.fresh))
                                Reading)))))) in
  RunState Sample.fresh = NotStarted /\
  (0 <= writeChanCapacity Sample.fresh <= Sample.maxChanSize)%Z /\
  exists c, writeChan final = Some c /\ dataqsiz c = 1 /\ qcount c <= 1.
Proof.
  cbv zeta. split; [|split].
  - reflexivity.
  - vm_compute. split; discriminate.
  - match goal with
    | |- exists c, writeChan (fst (readRoutine ?ticks (fst (TryWrite_all ?calls ?c0
                     (fst (fst (serve _ ?turns (fst (Start _ _ ?wt ?w)) ?rs))))))) = _ /\ _ =>
        apply (queue_never_exceeds_capacity Sample.marshal Sample.maxChanSize
                 wt turns rs calls c0 ticks w)
    end; [reflexivity|vm_compute; split; discriminate].
Defined.

